(** * print-fillers.js: printable fill-in fields for ": _____" placeholders

    A shallow embedding of [public/scripts/print-fillers.js].  The script
    looks for a colon, optional white space and five or more underscores in
    the text nodes of a document, replaces each occurrence by a text input
    for the time of printing, and restores the text afterwards.

    Layout of the development:
    - JavaScript strings as lists of UTF-16 code units;
    - the regular expression [PATTERN] and its [exec]/[test] methods, with
      the [lastIndex] cursor of the shared pattern object;
    - the DOM as a tree of nodes addressed by paths of child indices;
    - a state-and-exception monad for the script's functions;
    - the functions of the script, in the order of the source;
    - characterisations of their effect on the tree, and the properties. *)

From Stdlib Require Import NArith Ascii String DecimalString Lia.
From stdpp Require Import base list.
From Equations Require Import Equations.

Set Default Proof Using "Type".
Set Warnings "-register-all".

(** ** Strings *)

(** A JavaScript string is a sequence of 16-bit code units. *)
Abbreviation jsstring := (list N).

Definition str (s : string) : jsstring :=
  N_of_ascii <$> list_ascii_of_string s.
Arguments str s%_string.

(** [String(n)] and [n + 'ch'] for a non-negative integer [n]. *)
Definition String_of_nat (n : nat) : jsstring :=
  str (NilEmpty.string_of_uint (Nat.to_uint n)).

(** The class [\s] of a pattern without the [u] and [i] flags, which is
    also the set [String.prototype.trim] strips: WhiteSpace and
    LineTerminator of ECMAScript. *)
Definition is_space (c : N) : bool :=
  match c with
  | 9 | 10 | 11 | 12 | 13 | 32 | 160 | 5760
  | 8232 | 8233 | 8239 | 8287 | 12288 | 65279 => true
  | _ => (8192 <=? c) && (c <=? 8202)
  end%N.

Definition colon : N := 58.
Definition underscore : N := 95.
Definition is_underscore (c : N) : bool := (c =? underscore)%N.

Fixpoint take_while {A} (p : A → bool) (l : list A) : list A :=
  match l with
  | x :: l' => if p x then x :: take_while p l' else []
  | [] => []
  end.

Fixpoint drop_while {A} (p : A → bool) (l : list A) : list A :=
  match l with
  | x :: l' => if p x then drop_while p l' else l
  | [] => []
  end.

(** [s.trim()] *)
Definition trim (s : jsstring) : jsstring :=
  reverse (drop_while is_space (reverse (drop_while is_space s))).

(** [s.slice(from, to)] and [s.slice(from)] for [0 <= from <= to]. *)
Definition slice (s : jsstring) (from to : nat) : jsstring :=
  take (to - from) (drop from s).
Definition slice_from (s : jsstring) (from : nat) : jsstring :=
  drop from s.

(** [s.toLowerCase()] on the letters A to Z.  The only other code unit that
    JavaScript lowers to an ASCII letter is the Kelvin sign (to k), and no
    name the script compares with contains a k, so the comparisons of
    [acceptNode] come out the same. *)
Definition lower_char (c : N) : N :=
  if ((65 <=? c) && (c <=? 90))%N then (c + 32)%N else c.
Definition toLowerCase (s : jsstring) : jsstring := lower_char <$> s.

(** Truthiness of a string: the empty string is falsy. *)
Definition truthy (s : jsstring) : bool :=
  match s with [] => false | _ => true end.

(** Strict equality of strings. *)
Definition str_eqb (a b : jsstring) : bool := bool_decide (a = b).

(** ** The pattern: a colon, a group of zero or more [\s], a group of five
    or more underscores, with the global flag *)

(** A successful match: [m.index], [m[1]] and [m[2]]. *)
Record regex_match := mkMatch {
  m_index : nat;
  m_1 : jsstring;
  m_2 : jsstring
}.

(** The pattern tried at the head of [l].  Both quantifiers are greedy.
    The two classes are disjoint and the second group ends the pattern, so
    backtracking into a shorter run never turns a failure into a success
    (see [match_here_complete]). *)
Definition match_here (l : jsstring) : option (jsstring * jsstring) :=
  match l with
  | c :: r =>
      if (c =? colon)%N then
        let spaces := take_while is_space r in
        let underscores := take_while is_underscore (drop (length spaces) r) in
        if decide (5 ≤ length underscores) then Some (spaces, underscores)
        else None
      else None
  | [] => None
  end.

(** The leftmost position at or after [i] where the pattern matches;
    [l] is the text from position [i] on. *)
Fixpoint search_from (l : jsstring) (i : nat) : option regex_match :=
  match match_here l with
  | Some (spaces, underscores) => Some (mkMatch i spaces underscores)
  | None =>
      match l with
      | _ :: l' => search_from l' (S i)
      | [] => None
      end
  end.

Definition match_end (m : regex_match) : nat :=
  m_index m + 1 + length (m_1 m) + length (m_2 m).

(** [PATTERN.exec(text)] with the cursor at [lastIndex]: the result and the
    new value of the cursor. *)
Definition PATTERN_exec (text : jsstring) (lastIndex : nat)
  : option regex_match * nat :=
  if decide (length text < lastIndex) then (None, 0)
  else match search_from (drop lastIndex text) lastIndex with
       | Some m => (Some m, match_end m)
       | None => (None, 0)
       end.

(** [PATTERN.test(text)] *)
Definition PATTERN_test (text : jsstring) (lastIndex : nat) : bool * nat :=
  let '(m, lastIndex') := PATTERN_exec text lastIndex in
  (bool_decide (is_Some m), lastIndex').

(** ** The document tree *)

(** Text and comment nodes carry character data.  An element has a local
    name, attributes in the order they were set, the declarations of its
    inline style ([element.style]) and children. *)
Inductive node :=
| Text (data : jsstring)
| Comment (data : jsstring)
| Elem (tag : jsstring) (attrs : list (jsstring * jsstring))
       (style : list (jsstring * jsstring)) (children : list node).

(** Induction that reaches the children of an element. *)
Section node_induction.
Variable P : node → Prop.
Hypothesis HText : ∀ d, P (Text d).
Hypothesis HComment : ∀ d, P (Comment d).
Hypothesis HElem : ∀ t a s ks, Forall P ks → P (Elem t a s ks).

Fixpoint node_tree_ind (n : node) : P n :=
  match n with
  | Text d => HText d
  | Comment d => HComment d
  | Elem t a s ks =>
      HElem t a s ks
        ((fix go (l : list node) : Forall P l :=
            match l with
            | [] => Forall_nil_2 P
            | k :: l' => Forall_cons_2 P k l' (node_tree_ind k) (go l')
            end) ks)
  end.
End node_induction.

Fixpoint assoc_get (k : jsstring) (l : list (jsstring * jsstring))
  : option jsstring :=
  match l with
  | (k', v) :: l' => if str_eqb k k' then Some v else assoc_get k l'
  | [] => None
  end.

Fixpoint assoc_set (k v : jsstring) (l : list (jsstring * jsstring))
  : list (jsstring * jsstring) :=
  match l with
  | (k', v') :: l' =>
      if str_eqb k k' then (k, v) :: l' else (k', v') :: assoc_set k v l'
  | [] => [(k, v)]
  end.

Definition createElement (tag : jsstring) : node := Elem tag [] [] [].
Definition createTextNode (data : jsstring) : node := Text data.

Definition setAttribute (name value : jsstring) (n : node) : node :=
  match n with
  | Elem t a s ks => Elem t (assoc_set name value a) s ks
  | _ => n
  end.

Definition getAttribute (name : jsstring) (n : node) : option jsstring :=
  match n with
  | Elem _ a _ _ => assoc_get name a
  | _ => None
  end.

(** [element.style.prop = value] *)
Definition setStyle (prop value : jsstring) (n : node) : node :=
  match n with
  | Elem t a s ks => Elem t a (assoc_set prop value s) ks
  | _ => n
  end.

Definition getStyle (prop : jsstring) (n : node) : option jsstring :=
  match n with
  | Elem _ _ s _ => assoc_get prop s
  | _ => None
  end.

(** [parent.appendChild(frag)] for a document fragment holding [frag]. *)
Definition appendChildren (frag : list node) (n : node) : node :=
  match n with
  | Elem t a s ks => Elem t a s (ks ++ frag)
  | _ => n
  end.

Definition childNodes (n : node) : list node :=
  match n with
  | Elem _ _ _ ks => ks
  | _ => []
  end.

(** [node.nodeValue]: [None] stands for [null]. *)
Definition nodeValue (n : node) : option jsstring :=
  match n with
  | Text d | Comment d => Some d
  | Elem _ _ _ _ => None
  end.

Definition nodeType (n : node) : nat :=
  match n with
  | Elem _ _ _ _ => 1
  | Text _ => 3
  | Comment _ => 8
  end.

Definition upper_char (c : N) : N :=
  if ((97 <=? c) && (c <=? 122))%N then (c - 32)%N else c.

(** [element.tagName] of an HTML element in an HTML document: the name in
    ASCII upper case.  (A foreign element such as [svg] reports its name
    unchanged; after [toLowerCase] the two agree.) *)
Definition tagName (n : node) : jsstring :=
  match n with
  | Elem t _ _ _ => upper_char <$> t
  | _ => []
  end.

Definition is_text (n : node) : bool :=
  match n with Text _ => true | _ => false end.

Definition is_element (n : node) : bool :=
  match n with Elem _ _ _ _ => true | _ => false end.

(** *** Paths *)

(** A node of the document is addressed by the child indices that lead to
    it from the document element; [[]] is the document element itself.
    Replacing a node by another keeps the index of every sibling, so the
    addresses of all nodes outside the replaced subtree stay valid. *)
Abbreviation path := (list nat).

Fixpoint node_at (p : path) (n : node) : option node :=
  match p with
  | [] => Some n
  | i :: q =>
      match n with
      | Elem _ _ _ ks => ks !! i ≫= node_at q
      | _ => None
      end
  end.

(** Apply [f] to the subtree at [p]; nothing changes when there is no node
    at [p]. *)
Fixpoint alter_at (f : node → node) (p : path) (n : node) : node :=
  match p with
  | [] => f n
  | i :: q =>
      match n with
      | Elem t a s ks => Elem t a s (alter (alter_at f q) i ks)
      | _ => n
      end
  end.

Definition replace_at (p : path) (new : node) (n : node) : node :=
  alter_at (λ _, new) p n.

(** The addresses, in document order, of the nodes of a tree and of a list
    of siblings that satisfy [sel]. *)
Section paths_where.
Variable sel : node → bool.

Fixpoint paths_where (n : node) : list path :=
  (if sel n then [[]] else []) ++
  match n with
  | Elem _ _ _ ks =>
      (fix go (i : nat) (l : list node) : list path :=
         match l with
         | [] => []
         | k :: l' => ((i ::.) <$> paths_where k) ++ go (S i) l'
         end) 0 ks
  | _ => []
  end.

Fixpoint paths_in_children (i : nat) (l : list node) : list path :=
  match l with
  | [] => []
  | k :: l' => ((i ::.) <$> paths_where k) ++ paths_in_children (S i) l'
  end.
End paths_where.

(** The proper descendants of the node at [root] that satisfy [sel]. *)
Definition descendants_where (sel : node → bool) (root : path) (d : node)
  : list path :=
  match node_at root d with
  | Some n => (root ++.) <$> paths_in_children sel 0 (childNodes n)
  | None => []
  end.

(** *** Selectors *)

Definition is_ascii_whitespace (c : N) : bool :=
  match c with
  | 9 | 10 | 12 | 13 | 32 => true
  | _ => false
  end%N.

(** The tokens of a [class] attribute; [cur] is the token being read. *)
Fixpoint class_tokens (cur s : jsstring) : list jsstring :=
  match s with
  | c :: s' =>
      if is_ascii_whitespace c
      then (if truthy cur then [cur] else []) ++ class_tokens [] s'
      else class_tokens (cur ++ [c]) s'
  | [] => if truthy cur then [cur] else []
  end.

Definition classList (n : node) : list jsstring :=
  match getAttribute (str "class") n with
  | Some v => class_tokens [] v
  | None => []
  end.

(** [element.matches(tag + '.' + cls)] in a document in no-quirks mode. *)
Definition matches_tag_class (tag cls : jsstring) (n : node) : bool :=
  match n with
  | Elem t _ _ _ => str_eqb t tag && bool_decide (cls ∈ classList n)
  | _ => false
  end.

Definition has_id (id : jsstring) (n : node) : bool :=
  match getAttribute (str "id") n with
  | Some v => str_eqb v id
  | None => false
  end.

(** [document.head] and [document.body]: a child of the [html] document
    element, if there is one. *)
Fixpoint find_index {A} (p : A → bool) (i : nat) (l : list A) : option nat :=
  match l with
  | x :: l' => if p x then Some i else find_index p (S i) l'
  | [] => None
  end.

Definition has_tag (tag : jsstring) (n : node) : bool :=
  match n with
  | Elem t _ _ _ => str_eqb t tag
  | _ => false
  end.

Definition child_of_html (sel : node → bool) (d : node) : option path :=
  if has_tag (str "html") d
  then (λ i, [i]) <$> find_index sel 0 (childNodes d)
  else None.

Definition head_of (d : node) : option path :=
  child_of_html (has_tag (str "head")) d.

Definition body_of (d : node) : option path :=
  child_of_html (λ n, has_tag (str "body") n || has_tag (str "frameset") n) d.

(** ** Script state, exceptions and the monad of the script's functions *)

Inductive exn :=
| TypeError
| HierarchyRequestError
| HostError (code : N).

Inductive outcome (A : Type) :=
| Ok (a : A)
| Throw (e : exn).
Arguments Ok {A} a.
Arguments Throw {A} e.

(** What the script can see and change: the document, the cursor of the
    one [PATTERN] object shared by all calls, and the warnings written to
    the console. *)
Record world := mkWorld {
  dom : node;
  PATTERN_lastIndex : nat;
  console : list (jsstring * exn)
}.

Definition set_dom (d : node) (w : world) : world :=
  mkWorld d (PATTERN_lastIndex w) (console w).
Definition set_lastIndex (i : nat) (w : world) : world :=
  mkWorld (dom w) i (console w).
Definition log_warning (msg : jsstring) (e : exn) (w : world) : world :=
  mkWorld (dom w) (PATTERN_lastIndex w) (console w ++ [(msg, e)]).

(** A computation runs on a world and ends in a world, normally or with an
    exception; what it changed before it threw stays changed. *)
Definition js (A : Type) : Type := world → world * outcome A.

#[global] Instance js_ret : MRet js := λ A a w, (w, Ok a).
#[global] Instance js_bind : MBind js := λ A B f m w,
  match m w with
  | (w', Ok a) => f a w'
  | (w', Throw e) => (w', Throw e)
  end.

Definition throw {A} (e : exn) : js A := λ w, (w, Throw e).

(** [try { body } catch (err) { handler }] *)
Definition try_catch {A} (body : js A) (handler : exn → js A) : js A := λ w,
  match body w with
  | (w', Ok a) => (w', Ok a)
  | (w', Throw e) => handler e w'
  end.

Definition gets {A} (f : world → A) : js A := λ w, (w, Ok (f w)).
Definition modify (f : world → world) : js unit := λ w, (f w, Ok ()).

(** [for (const x of l) f(x)] and [l.forEach(f)] *)
Fixpoint forEach {A} (f : A → js unit) (l : list A) : js unit :=
  match l with
  | [] => mret ()
  | x :: l' => f x ;; forEach f l'
  end.

(** The elements of [l] that [f] accepts, asked in order. *)
Fixpoint filterM {A} (f : A → js bool) (l : list A) : js (list A) :=
  match l with
  | [] => mret []
  | x :: l' =>
      keep ← f x;
      rest ← filterM f l';
      mret (if keep : bool then x :: rest else rest)
  end.

(** *** DOM operations on the document of the world *)

(** [node.parentNode]: nothing ([null]), the document, or an element. *)
Inductive parent_ref :=
| NoParent
| DocumentParent
| ElementParent (p : path).

Definition parentNode (node : path) : js parent_ref :=
  gets (λ w,
    match node with
    | [] => if is_element (dom w) then DocumentParent else NoParent
    | _ => ElementParent (removelast node)
    end).

(** [parent.replaceChild(new, old)], [old] being the node at [old] and
    [parent] its parent.  A document takes no text node as a child. *)
Definition replaceChild (parent : parent_ref) (new : node) (old : path)
  : js unit :=
  match parent with
  | NoParent => throw TypeError
  | DocumentParent =>
      if is_text new then throw HierarchyRequestError
      else modify (set_dom new)
  | ElementParent _ => modify (λ w, set_dom (replace_at old new (dom w)) w)
  end.

(** [document.getElementById(id)]: the first element with that id in tree
    order, if any. *)
Definition getElementById (id : jsstring) : js (option path) :=
  gets (λ w, head (paths_where (has_id id) (dom w))).

(** [document.querySelectorAll(tag + '.' + cls)]: a static list. *)
Definition querySelectorAll (tag cls : jsstring) : js (list path) :=
  gets (λ w, paths_where (matches_tag_class tag cls) (dom w)).

(** [console.warn(msg, err)] *)
Definition console_warn (msg : jsstring) (e : exn) : js unit :=
  modify (log_warning msg e).

(** ** The script *)

Definition WRAPPER_CLASS : jsstring := str "print-fillers-wrapper".
Definition INPUT_CLASS : jsstring := str "print-fillable-input".
Definition STYLE_ID : jsstring := str "print-fillers-style".

(** The text of the injected style sheet. *)
Definition style_text : jsstring :=
  str "
      /* Styling used only during print preview / print */
      @media print {
        ." ++ INPUT_CLASS ++ str " {
          -webkit-print-color-adjust: exact;
          color: #000 !important;
          background: transparent !important;
          border: none !important;
          border-bottom: 1px solid #000 !important;
          padding: 0 !important;
          margin: 0 .1ch !important;
          font: inherit !important;
          box-sizing: content-box !important;
        }
        ." ++ WRAPPER_CLASS ++ str " input { -webkit-appearance: none; appearance: none; }
      }

      /* Keep inputs visually unobtrusive on the screen if they appear briefly */
      ." ++ INPUT_CLASS ++ str " {
        font: inherit;
        vertical-align: baseline;
      }
    ".

(** [document.head.appendChild(child)] *)
Definition head_appendChild (child : node) : js unit := λ w,
  match head_of (dom w) with
  | Some p => (set_dom (alter_at (appendChildren [child]) p (dom w)) w, Ok ())
  | None => (w, Throw TypeError)
  end.

Definition ensureStyle : js unit :=
  found ← getElementById STYLE_ID;
  if bool_decide (is_Some (found : option path)) then mret ()
  else
    let style := createElement (str "style") in
    let style := setAttribute (str "id") STYLE_ID style in
    let style := appendChildren [createTextNode style_text] style in
    head_appendChild style.

(** The declarations of the inline style are kept under the names the
    script sets them by, in the order it sets them. *)
Definition createInputFor (underscoresCount : nat) : node :=
  let input := createElement (str "input") in
  let input := setAttribute (str "type") (str "text") input in
  let input := setAttribute (str "class") INPUT_CLASS input in
  let input :=
    setStyle (str "width")
      (String_of_nat (Nat.max 2 underscoresCount) ++ str "ch") input in
  let input :=
    setAttribute (str "data-underscores") (String_of_nat underscoresCount)
      input in
  let input := setAttribute (str "aria-label") (str "fillable") input in
  let input := setAttribute (str "autocomplete") (str "off") input in
  let input := setAttribute (str "spellcheck") (str "false") input in
  let input := setStyle (str "background") (str "transparent") input in
  let input := setStyle (str "border") (str "none") input in
  let input := setStyle (str "border-bottom") (str "1px solid #000") input in
  let input := setStyle (str "padding") (str "0") input in
  let input := setStyle (str "margin") (str "0 .1ch") input in
  let input := setStyle (str "box-sizing") (str "content-box") input in
  let input := setStyle (str "font") (str "inherit") input in
  input.

(** The variables of the loop of [replaceInTextNode]: the cursor of the
    shared pattern, [lastIndex], the fragment under construction and
    [replaced]. *)
Record loop_state := mkLoop {
  l_PATTERN_lastIndex : nat;
  l_lastIndex : nat;
  l_frag : list node;
  l_replaced : bool
}.

(** [s || ''] *)
Definition or_empty (s : jsstring) : jsstring := if truthy s then s else [].

(** One turn of the loop, for the match [m] that left the cursor of the
    pattern at [PATTERN_lastIndex']. *)
Definition loop_body (text : jsstring) (m : regex_match)
    (PATTERN_lastIndex' : nat) (st : loop_state) : loop_state :=
  let matchStart := m_index m in
  let matchEnd := PATTERN_lastIndex' in
  let before := slice text (l_lastIndex st) matchStart in
  let spaces := or_empty (m_1 m) in
  let underscores := or_empty (m_2 m) in
  let count := length underscores in
  let frag := l_frag st in
  let frag := if truthy before then frag ++ [createTextNode before] else frag in
  let frag := frag ++ [createTextNode (colon :: spaces)] in
  let input := createInputFor count in
  let frag := frag ++ [input] in
  mkLoop PATTERN_lastIndex' matchEnd frag true.

(** A value together with the equation that says where it came from. *)
Definition inspect {A : Type} (x : A) : { y : A | x = y } := exist _ x eq_refl.

(** [while ((m = PATTERN.exec(text)) !== null) { ... }].  Every match is at
    least six code units long and ends inside the text, so the cursor
    moves towards the end of the text. *)
Equations? while_exec (text : jsstring) (st : loop_state) : loop_state
  by wf (S (length text) - l_PATTERN_lastIndex st) lt :=
  while_exec text st
    with inspect (PATTERN_exec text (l_PATTERN_lastIndex st)) := {
    | exist _ (Some m, i) Hexec => while_exec text (loop_body text m i st)
    | exist _ (None, i) Hexec =>
        mkLoop i (l_lastIndex st) (l_frag st) (l_replaced st) }.
Proof.
  clear while_exec. unfold PATTERN_exec in Hexec.
  destruct st as [pi li fr re]; simpl in *.
  destruct (decide (length text < pi)) as [|Hle]; [discriminate|].
  assert (Hs : ∀ l j m', search_from l j = Some m' →
                 j < match_end m' ≤ j + length l).
  { clear. induction l as [|c l IH]; intros j m' H; simpl in H.
    - discriminate.
    - destruct (c =? colon)%N.
      + destruct (decide _) as [H5|].
        * injection H as <-. unfold match_end; simpl.
          assert (Hl : ∀ (p : N → bool) (x : jsstring),
                     length (take_while p x) ≤ length x).
          { clear. intros p x. induction x as [|y x IHx]; simpl; [lia|].
            destruct (p y); simpl; lia. }
          pose proof (Hl is_space l).
          pose proof (Hl is_underscore
                        (drop (length (take_while is_space l)) l)) as Hu.
          rewrite length_drop in Hu. lia.
        * apply IH in H. simpl. lia.
      + apply IH in H. simpl. lia. }
  destruct (search_from (drop pi text) pi) as [m'|] eqn:Hsearch;
    [|discriminate].
  injection Hexec as -> <-. apply Hs in Hsearch.
  rewrite length_drop in Hsearch. lia.
Defined.

(** The node at an address of the document.  The script reaches nodes
    through references it read from the document, so the addresses it uses
    are those of nodes that are, or were, in the document. *)
Definition node_ref (p : path) : js (option node) :=
  gets (λ w, node_at p (dom w)).

(** [PATTERN.lastIndex = i] *)
Definition PATTERN_set_lastIndex (i : nat) : js unit :=
  modify (set_lastIndex i).

(** The end of [replaceInTextNode], from the remainder to the wrapper that
    takes the place of the text node; [st] holds the variables as the loop
    left them. *)
Definition build_wrapper (text : jsstring) (st : loop_state) : node :=
  let remainder := slice_from text (l_lastIndex st) in
  let frag :=
    if truthy remainder
    then l_frag st ++ [createTextNode remainder]
    else l_frag st in
  let wrapper := createElement (str "span") in
  let wrapper := setAttribute (str "class") WRAPPER_CLASS wrapper in
  let wrapper := setAttribute (str "data-original") text wrapper in
  let wrapper := appendChildren frag wrapper in
  wrapper.

Definition replaceInTextNode (node : path) : js bool :=
  n ← node_ref node;
  match n ≫= nodeValue with
  | None => mret false
  | Some text =>
      if negb (truthy text) then mret false
      else
        PATTERN_set_lastIndex 0;;
        cursor ← gets PATTERN_lastIndex;
        let st := while_exec text (mkLoop cursor 0 [] false) in
        PATTERN_set_lastIndex (l_PATTERN_lastIndex st);;
        if negb (l_replaced st) then mret false
        else
          let wrapper := build_wrapper text st in
          parent ← parentNode node;
          replaceChild parent wrapper node;;
          mret true
  end.

Inductive filter_result := FILTER_ACCEPT | FILTER_REJECT.

Definition accepts (r : filter_result) : bool :=
  match r with FILTER_ACCEPT => true | FILTER_REJECT => false end.

(** The element names under which [acceptNode] rejects every text node. *)
Definition skipped_tags : list jsstring :=
  [str "script"; str "style"; str "textarea"; str "code"; str "pre";
   str "input"; str "select"; str "button"; str "svg"].

(** [PATTERN.test(text)] on the shared pattern. *)
Definition PATTERN_test_shared (text : jsstring) : js bool := λ w,
  let '(r, cursor) := PATTERN_test text (PATTERN_lastIndex w) in
  (set_lastIndex cursor w, Ok r).

Definition acceptNode (node : path) : js filter_result :=
  n ← node_ref node;
  match n ≫= nodeValue with
  | None => mret FILTER_REJECT
  | Some value =>
      if negb (truthy value) || negb (truthy (trim value))
      then mret FILTER_REJECT
      else
        parent ← parentNode node;
        match parent with
        | ElementParent pp =>
            par ← node_ref pp;
            match par with
            | Some par =>
                if negb (nodeType par =? 1) then mret FILTER_REJECT
                else
                  let tag := toLowerCase (tagName par) in
                  if bool_decide (tag ∈ skipped_tags) then mret FILTER_REJECT
                  else
                    PATTERN_set_lastIndex 0;;
                    found ← PATTERN_test_shared value;
                    mret (if found : bool then FILTER_ACCEPT
                          else FILTER_REJECT)
            | None => mret FILTER_REJECT
            end
        | DocumentParent | NoParent => mret FILTER_REJECT
        end
  end.

(** [document.createTreeWalker(root, NodeFilter.SHOW_TEXT, ...)]: a type
    error when [root] is [null]. *)
Definition createTreeWalker (root : option path) : js path :=
  match root with
  | Some r => mret r
  | None => throw TypeError
  end.

(** [while ((cur = walker.nextNode())) nodes.push(cur)]: the walker hands
    the text nodes below its root to [acceptNode] in document order and
    returns those it accepts; other nodes are skipped and their children
    visited.  The document does not change during the walk. *)
Definition walker_nodes (walker : path) : js (list path) :=
  texts ← gets (λ w, descendants_where is_text walker (dom w));
  filterM (λ p, r ← acceptNode p; mret (accepts r)) texts.

Definition scan_warning : jsstring := str "print-fillers: scanning failed".

(** The [try] block of [scan]. *)
Definition scan_try (root : option path) : js unit :=
  walker ← createTreeWalker root;
  nodes ← walker_nodes walker;
  forEach (λ n, replaceInTextNode n;; mret ()) nodes.

Definition scan (root : option path) : js unit :=
  try_catch (scan_try root) (λ err, console_warn scan_warning err).

Definition beforePrint : js unit :=
  ensureStyle;;
  body ← gets (λ w, body_of (dom w));
  scan body.

(** The arrow function [afterPrint] hands to [forEach].  A wrapper that left
    the document with an ancestor replaced earlier in the loop is replaced
    inside the detached subtree, which changes nothing in the document. *)
Definition afterPrint_each (w : path) : js unit :=
  n ← node_ref w;
  match n ≫= getAttribute (str "data-original") with
  | Some original =>
      let txt := createTextNode original in
      parent ← parentNode w;
      replaceChild parent txt w
  | None => mret ()
  end.

Definition afterPrint : js unit :=
  wrappers ← querySelectorAll (str "span") WRAPPER_CLASS;
  forEach afterPrint_each wrappers.

(** The replacement of [window.print].  The original function and
    [setTimeout] belong to the host: they may do anything to the world and
    may throw. *)
Section window_print.
Context {value : Type}.
Variable origPrint : list value → js value.
Variable setTimeout : js unit → nat → js unit.

Definition print (args : list value) : js value :=
  try_catch beforePrint (λ _, mret ());;
  res ← origPrint args;
  try_catch (setTimeout afterPrint 500) (λ _, mret ());;
  mret res.
End window_print.

(** ** What the functions compute, stated on strings and trees *)

(** [PATTERN.test(text)] from a cursor at the start of the text. *)
Definition has_match (text : jsstring) : bool := (PATTERN_test text 0).1.

(** The text holds a colon, white space if any, and five or more
    underscores. *)
Definition contains_placeholder (text : jsstring) : Prop :=
  ∃ pre spaces underscores post,
    text = pre ++ colon :: spaces ++ underscores ++ post ∧
    Forall (λ c, is_space c = true) spaces ∧
    Forall (λ c, is_underscore c = true) underscores ∧
    5 ≤ length underscores.

(** The length of the underscore run of every position of the text at
    which the pattern matches, from left to right. *)
Fixpoint match_runs (l : jsstring) : list nat :=
  match l with
  | [] => []
  | _ :: l' =>
      match match_here l with
      | Some (_, underscores) => [length underscores]
      | None => []
      end ++ match_runs l'
  end.

(** The longest run of underscores in a text; [cur] is the length of the
    run that ends just before [l]. *)
Fixpoint longest_run (cur : nat) (l : jsstring) : nat :=
  match l with
  | [] => cur
  | c :: l' =>
      if is_underscore c then longest_run (S cur) l'
      else Nat.max cur (longest_run 0 l')
  end.

(** The children of a wrapper read as pieces of the original text: plain
    text, or a field that stands for a run of underscores. *)
Inductive piece :=
| PText (s : jsstring)
| PField (run : nat).

Definition node_of_piece (p : piece) : node :=
  match p with
  | PText s => createTextNode s
  | PField run => createInputFor run
  end.

Definition text_of_piece (p : piece) : jsstring :=
  match p with
  | PText s => s
  | PField run => replicate run underscore
  end.

Definition field_runs (ps : list piece) : list nat :=
  omap (λ p, match p with PField run => Some run | PText _ => None end) ps.

(** A text piece is not empty and holds no further match; a field stands
    for five underscores or more. *)
Definition piece_ok (p : piece) : Prop :=
  match p with
  | PText s => s ≠ [] ∧ has_match s = false
  | PField run => 5 ≤ run
  end.

(** What holds of the variables of the loop of [replaceInTextNode] each
    time its condition is evaluated: the two cursors agree, and the
    fragment reads as the text before the cursor. *)
Definition loop_inv (text : jsstring) (st : loop_state) : Prop :=
  l_PATTERN_lastIndex st = l_lastIndex st ∧
  l_lastIndex st ≤ length text ∧
  ∃ ps : list piece,
    l_frag st = node_of_piece <$> ps ∧
    mjoin (text_of_piece <$> ps) = take (l_lastIndex st) text ∧
    Forall piece_ok ps ∧
    field_runs ps ++ match_runs (drop (l_lastIndex st) text)
      = match_runs text ∧
    (ps = [] ∨ field_runs ps ≠ []) ∧
    l_replaced st = negb (bool_decide (ps = [])).

(** The attributes of a wrapper made for a text node with value [text]. *)
Definition wrapper_attrs (text : jsstring) : list (jsstring * jsstring) :=
  [(str "class", WRAPPER_CLASS); (str "data-original", text)].

(** The wrapper [replaceInTextNode] puts in the place of a text node with
    value [text], if it replaces the node. *)
Definition wrapper_for (text : jsstring) : option node :=
  if truthy text then
    let st := while_exec text (mkLoop 0 0 [] false) in
    if l_replaced st then Some (build_wrapper text st) else None
  else None.

(** The effect of [replaceInTextNode] on the node it is given. *)
Definition replace_value (n : node) : node :=
  match nodeValue n ≫= wrapper_for with
  | Some wrapper => wrapper
  | None => n
  end.

(** The decision of [acceptNode] for a text node with value [value] whose
    parent is an element named [ptag]. *)
Definition skipped (ptag : jsstring) : bool :=
  bool_decide (toLowerCase (upper_char <$> ptag) ∈ skipped_tags).

Definition accept_text (ptag value : jsstring) : bool :=
  truthy value && truthy (trim value) && negb (skipped ptag) &&
  has_match value.

(** The effect of [scan] on a subtree whose parent is named [ptag], and on
    the root of the scan. *)
Fixpoint scan_tree (ptag : jsstring) (n : node) : node :=
  match n with
  | Text value => if accept_text ptag value then replace_value n else n
  | Comment _ => n
  | Elem t a s ks => Elem t a s (scan_tree t <$> ks)
  end.

Definition scan_root (n : node) : node :=
  match n with
  | Elem t a s ks => Elem t a s (scan_tree t <$> ks)
  | _ => n
  end.

(** The addresses, below a parent named [ptag], of the text nodes that
    [acceptNode] accepts. *)
Fixpoint accepted_paths (ptag : jsstring) (n : node) : list path :=
  match n with
  | Text value => if accept_text ptag value then [[]] else []
  | Comment _ => []
  | Elem t _ _ ks =>
      (fix go (i : nat) (l : list node) : list path :=
         match l with
         | [] => []
         | k :: l' => ((i ::.) <$> accepted_paths t k) ++ go (S i) l'
         end) 0 ks
  end.

Definition accepted_children (ptag : jsstring)
  : nat → list node → list path :=
  fix go (i : nat) (l : list node) : list path :=
    match l with
    | [] => []
    | k :: l' => ((i ::.) <$> accepted_paths ptag k) ++ go (S i) l'
    end.

(** A marker container, and one that [afterPrint] reverts. *)
Definition is_marker (n : node) : bool :=
  matches_tag_class (str "span") WRAPPER_CLASS n.

Definition original_of (n : node) : option jsstring :=
  getAttribute (str "data-original") n.

Definition revertible (n : node) : bool :=
  is_marker n && bool_decide (is_Some (original_of n)).

(** The effect of one turn of the loop of [afterPrint] on the node it is
    given, and of the whole loop on a tree. *)
Definition revert_node (n : node) : node :=
  match original_of n with
  | Some original => createTextNode original
  | None => n
  end.

Fixpoint revert_tree (n : node) : node :=
  match n with
  | Elem t a s ks =>
      if revertible n then revert_node n
      else Elem t a s (revert_tree <$> ks)
  | _ => n
  end.

(** The style element of [ensureStyle]. *)
Definition style_element : node :=
  appendChildren [createTextNode style_text]
    (setAttribute (str "id") STYLE_ID (createElement (str "style"))).

(** The strict prefixes of a path are the addresses of the ancestors. *)
Definition ancestor_paths (p : path) : list path :=
  (λ n, take n p) <$> seq 0 (length p).

(** The decision of [acceptNode] for the node at [p] of the document [d]. *)
Definition accept_at (d : node) (p : path) : bool :=
  match node_at p d ≫= nodeValue, p with
  | Some value, _ :: _ =>
      match node_at (removelast p) d with
      | Some (Elem t _ _ _) => accept_text t value
      | _ => false
      end
  | _, _ => false
  end.

(** One call of [replaceInTextNode], and one turn of the loop of
    [afterPrint], as changes of the document. *)
Definition replace_step (d : node) (p : path) : node :=
  alter_at replace_value p d.

Definition revert_step (d : node) (p : path) : node :=
  alter_at revert_node p d.

(** Addresses below a list of siblings, given those below each of them. *)
Fixpoint children_paths (G : node → list path) (i : nat) (l : list node)
  : list path :=
  match l with
  | [] => []
  | k :: l' => ((i ::.) <$> G k) ++ children_paths G (S i) l'
  end.

(** [p] is the address of a proper descendant of the node at [root]. *)
Definition is_below (root p : path) : bool :=
  bool_decide (root `prefix_of` p) && negb (bool_decide (root = p)).

(** The reading of "text inside a skipped element" that takes any
    ancestor of the text node, not only its parent: a scan would leave
    every such text node as it is. *)
Definition scan_spares_descendants_of_skipped : Prop :=
  ∀ (w : world) (root : option path) (p q : path) (v t : jsstring) a s ks,
    node_at p (dom w) = Some (Text v) →
    q ∈ ancestor_paths p →
    node_at q (dom w) = Some (Elem t a s ks) →
    skipped t = true →
    ∀ w1, scan root w = (w1, Ok ()) → node_at p (dom w1) = Some (Text v).

(** The matches the loop of [replaceInTextNode] goes through in a text,
    from position [from] on: each is the leftmost match that starts at or
    after the end of the match before it (at or after [from], for the
    first), and no match starts at or after the end of the last. *)
Inductive successive_matches (text : jsstring)
  : nat → list regex_match → Prop :=
| no_more_matches (from : nat) :
    (∀ j, from ≤ j → match_here (drop j text) = None) →
    successive_matches text from []
| next_match (from : nat) (m : regex_match) (ms : list regex_match) :
    from ≤ m_index m →
    (∀ j, from ≤ j < m_index m → match_here (drop j text) = None) →
    match_here (drop (m_index m) text) = Some (m_1 m, m_2 m) →
    successive_matches text (match_end m) ms →
    successive_matches text from (m :: ms).

(** The nodes [replaceInTextNode] puts in the fragment for the matches
    [ms], the first of which starts at or after [last]: for each match the
    text between [last] and its colon, if there is any, as one text node,
    the colon and the white space as another, and a field for the run of
    underscores; after the last match the rest of the text, if there is
    any. *)
Fixpoint fragment_of (text : jsstring) (last : nat) (ms : list regex_match)
  : list node :=
  match ms with
  | [] =>
      let remainder := slice_from text last in
      if truthy remainder then [createTextNode remainder] else []
  | m :: ms' =>
      let before := slice text last (m_index m) in
      (if truthy before then [createTextNode before] else [])
      ++ [createTextNode (colon :: m_1 m); createInputFor (length (m_2 m))]
      ++ fragment_of text (match_end m) ms'
  end.

(** ** Sample documents *)

Definition elem (tag : string) (ks : list node) : node :=
  Elem (str tag) [] [] ks.

Definition sample_text : jsstring := str "Name: _____ Date: ______".

(** [<html><head></head><body><p>Name: _____ Date: ______</p></body></html>] *)
Definition sample_document : node :=
  elem "html" [elem "head" []; elem "body" [elem "p" [Text sample_text]]].

Definition sample_world : world := mkWorld sample_document 0 [].

(** A document without a [head]: [ensureStyle] fails on it. *)
Definition headless_world : world :=
  mkWorld (elem "html" [elem "body" [elem "p" [Text sample_text]]]) 0 [].

(** [<pre><b>x: _____</b></pre>] in the body of a document. *)
Definition nested_world : world :=
  mkWorld
    (elem "html"
       [elem "head" [];
        elem "body" [elem "pre" [elem "b" [Text (str "x: _____")]]]])
    0 [].

(** [<code>x: _____</code>] in the body of a document. *)
Definition code_world : world :=
  mkWorld
    (elem "html"
       [elem "head" []; elem "body" [elem "code" [Text (str "x: _____")]]])
    0 [].

(** A [span] of class [print-fillers-wrapper] without [data-original],
    around a text and a field. *)
Definition stray_wrapper : node :=
  Elem (str "span") [(str "class", WRAPPER_CLASS)] []
    [Text (str "Name: "); createInputFor 5].

Definition stray_world : world :=
  mkWorld (elem "html" [elem "head" []; elem "body" [stray_wrapper]]) 0 [].

(** [<select><option>Pick: _____</option></select>] in the body of a
    document. *)
Definition select_world : world :=
  mkWorld
    (elem "html"
       [elem "head" [];
        elem "body" [elem "select" [elem "option" [Text (str "Pick: _____")]]]])
    0 [].

(** The example of the specification read node by node: after
    [replaceInTextNode] on the text node of the sample document, the
    element in its place has four children, the text node "Name: ", a
    field, the text node " Date: " and a field. *)
Definition sample_marker_has_four_children : Prop :=
  ∃ t a s field1 field2,
    node_at [1; 0; 0] (dom (replaceInTextNode [1; 0; 0] sample_world).1)
    = Some (Elem t a s [Text (str "Name: "); field1;
                        Text (str " Date: "); field2]).

(** What a scan may make of a node: an element keeps its name, attributes,
    style and number of children, a comment stays as it is, and a text
    node stays as it is or becomes the wrapper of its value. *)
Definition same_shell (n n' : node) : Prop :=
  match n with
  | Elem t a s ks => ∃ ks', n' = Elem t a s ks' ∧ length ks' = length ks
  | Comment v => n' = Comment v
  | Text v =>
      n' = Text v ∨ ∃ kids, n' = Elem (str "span") (wrapper_attrs v) [] kids
  end.

(** The document after [scan(root)]. *)
Definition scanned (root : option path) (d : node) : node :=
  match root with
  | Some r => alter_at scan_root r d
  | None => d
  end.

(** * Properties *)

(** ** Runs of characters *)

Section runs.
Context {A : Type} (p : A → bool).

Lemma take_while_drop (l : list A) :
  take_while p l ++ drop (length (take_while p l)) l = l.
Proof.
  induction l as [|x l IH]; simpl; [done|].
  destruct (p x); simpl; [by f_equal | done].
Qed.

Lemma take_while_Forall (l : list A) :
  Forall (λ c, p c = true) (take_while p l).
Proof.
  induction l as [|x l IH]; simpl; [constructor|].
  destruct (p x) eqn:Hx; by constructor.
Qed.

Lemma take_while_length (l : list A) : length (take_while p l) ≤ length l.
Proof.
  induction l as [|x l IH]; simpl; [lia|]. destruct (p x); simpl; lia.
Qed.

Lemma take_while_app (l1 l2 : list A) :
  Forall (λ c, p c = true) l1 →
  take_while p (l1 ++ l2) = l1 ++ take_while p l2.
Proof.
  induction 1 as [|x l1 Hx _ IH]; simpl; [done|]. by rewrite Hx, IH.
Qed.

(** The run stops at a character that is not in the class. *)
Lemma take_while_stops (l : list A) (c : A) :
  head (drop (length (take_while p l)) l) = Some c → p c = false.
Proof.
  induction l as [|x l IH]; simpl; [done|].
  destruct (p x) eqn:Hx; simpl; [done|]. by intros [= <-].
Qed.
End runs.

Lemma space_not_underscore (c : N) : is_space c = true → is_underscore c = false.
Proof.
  intros Hs. destruct (is_underscore c) eqn:Hu; [|done].
  apply N.eqb_eq in Hu. subst c. discriminate Hs.
Qed.

Lemma colon_not_space : is_space colon = false.
Proof. reflexivity. Qed.

Lemma colon_not_underscore : is_underscore colon = false.
Proof. reflexivity. Qed.

Lemma is_underscore_eq (c : N) : is_underscore c = true ↔ c = underscore.
Proof. apply N.eqb_eq. Qed.

Lemma Forall_underscore_replicate (l : jsstring) :
  Forall (λ c, is_underscore c = true) l → l = replicate (length l) underscore.
Proof.
  induction 1 as [|c l Hc _ IH]; simpl; [done|].
  apply is_underscore_eq in Hc. by rewrite Hc, <-IH.
Qed.

(** ** The pattern at one position *)

(** What a successful match at the head of [l] looks like. *)
Lemma match_here_sound (l spaces underscores : jsstring) :
  match_here l = Some (spaces, underscores) →
  ∃ rest,
    l = colon :: spaces ++ underscores ++ rest ∧
    Forall (λ c, is_space c = true) spaces ∧
    Forall (λ c, is_underscore c = true) underscores ∧
    5 ≤ length underscores ∧
    (∀ c, head rest = Some c → is_underscore c = false).
Proof.
  destruct l as [|c r]; simpl; [done|].
  destruct (c =? colon)%N eqn:Hc; [|done].
  apply N.eqb_eq in Hc. subst c.
  destruct (decide _) as [H5|]; [|done]. intros [= <- <-].
  set (sp := take_while is_space r) in *.
  set (us := take_while is_underscore (drop (length sp) r)) in *.
  exists (drop (length us) (drop (length sp) r)). split_and!.
  - f_equal. subst us. rewrite take_while_drop. subst sp.
    by rewrite take_while_drop.
  - apply take_while_Forall.
  - apply take_while_Forall.
  - done.
  - intros c. apply take_while_stops.
Qed.

(** Any way of reading the pattern at the head of a text (with any number
    of the underscores that are there) leads to the greedy match: the same
    white space, and the whole run of underscores. *)
Lemma match_here_complete (spaces underscores rest : jsstring) :
  Forall (λ c, is_space c = true) spaces →
  Forall (λ c, is_underscore c = true) underscores →
  5 ≤ length underscores →
  match_here (colon :: spaces ++ underscores ++ rest)
  = Some (spaces, underscores ++ take_while is_underscore rest).
Proof.
  intros Hsp Hus H5. simpl.
  assert (take_while is_space (spaces ++ underscores ++ rest) = spaces) as ->.
  { rewrite take_while_app by done.
    destruct Hus as [|c us Hc _]; simpl in *; [lia|].
    destruct (is_space c) eqn:Hs.
    - apply space_not_underscore in Hs. congruence.
    - apply app_nil_r. }
  rewrite drop_app_length, take_while_app by done.
  rewrite decide_True; [done|]. rewrite length_app. lia.
Qed.

(** A text that starts with anything but a colon has no match at its
    head. *)
Lemma match_here_not_colon (c : N) (l : jsstring) :
  c ≠ colon → match_here (c :: l) = None.
Proof.
  intros Hc. simpl. by apply N.eqb_neq in Hc as ->.
Qed.

(** A match at the head of a text is still there when the text goes on. *)
Lemma match_here_app (l l' : jsstring) :
  is_Some (match_here l) → is_Some (match_here (l ++ l')).
Proof.
  intros [[sp us] H]. apply match_here_sound in H as (rest & -> & ? & ? & ? & _).
  change ((colon :: sp ++ us ++ rest) ++ l')
    with (colon :: (sp ++ us ++ rest) ++ l').
  rewrite <-!app_assoc. by rewrite match_here_complete.
Qed.

(** ** Searching for the pattern *)

Lemma search_from_Some (l : jsstring) (i : nat) (m : regex_match) :
  search_from l i = Some m →
  ∃ k, m_index m = i + k ∧
       match_here (drop k l) = Some (m_1 m, m_2 m) ∧
       ∀ j, j < k → match_here (drop j l) = None.
Proof.
  revert i. induction l as [|c l IH]; intros i.
  - simpl. done.
  - cbn [search_from]. destruct (match_here (c :: l)) as [[sp us]|] eqn:Hm.
    + intros [= <-]. exists 0. simpl. split_and!; [lia|done|lia].
    + intros H. apply IH in H as (k & Hk & Hmk & Hlt).
      exists (S k). split_and!; [lia|done|].
      intros [|j] Hj; [done|]. apply Hlt. lia.
Qed.

Lemma search_from_None (l : jsstring) (i : nat) :
  search_from l i = None → ∀ j, match_here (drop j l) = None.
Proof.
  revert i. induction l as [|c l IH]; intros i.
  - intros _ j. by rewrite drop_nil.
  - cbn [search_from]. destruct (match_here (c :: l)) as [[sp us]|] eqn:Hm;
      [done|].
    intros H [|j]; [done|]. simpl. by eapply IH.
Qed.

Lemma match_here_drop_bound (text : jsstring) (k : nat) (sp us : jsstring) :
  match_here (drop k text) = Some (sp, us) →
  k + 1 + length sp + length us ≤ length text.
Proof.
  intros H. apply match_here_sound in H as (rest & Hd & _).
  apply (f_equal length) in Hd. rewrite length_drop in Hd.
  simpl in Hd. rewrite !length_app in Hd. lia.
Qed.

Lemma PATTERN_exec_Some (text : jsstring) (cursor i : nat) (m : regex_match) :
  PATTERN_exec text cursor = (Some m, i) →
  i = match_end m ∧ cursor ≤ m_index m ∧ match_end m ≤ length text ∧
  match_here (drop (m_index m) text) = Some (m_1 m, m_2 m) ∧
  ∀ j, cursor ≤ j < m_index m → match_here (drop j text) = None.
Proof.
  unfold PATTERN_exec. destruct (decide _); [done|].
  destruct (search_from _ _) as [m'|] eqn:Hs; [|done]. intros [= -> <-].
  apply search_from_Some in Hs as (k & Hk & Hm & Hlt).
  rewrite drop_drop in Hm. rewrite Hk. split_and!; [done|lia| |done|].
  - unfold match_end. rewrite Hk. by apply match_here_drop_bound.
  - intros j Hj. specialize (Hlt (j - cursor)). rewrite drop_drop in Hlt.
    replace (cursor + (j - cursor)) with j in Hlt by lia. apply Hlt. lia.
Qed.

Lemma PATTERN_exec_None (text : jsstring) (cursor i : nat) :
  PATTERN_exec text cursor = (None, i) →
  i = 0 ∧ ∀ j, cursor ≤ j → match_here (drop j text) = None.
Proof.
  unfold PATTERN_exec. destruct (decide _) as [Hlt|].
  - intros [= <-]. split; [done|]. intros j Hj.
    by rewrite drop_ge by lia.
  - destruct (search_from _ _) as [m'|] eqn:Hs; [done|]. intros [= <-].
    split; [done|]. intros j Hj.
    pose proof (search_from_None _ _ Hs (j - cursor)) as H.
    rewrite drop_drop in H. by replace (cursor + (j - cursor)) with j in H by lia.
Qed.

(** [test] from the start of the text finds a match exactly when the
    pattern matches at some position. *)
Lemma has_match_true (text : jsstring) :
  has_match text = true ↔ ∃ j, is_Some (match_here (drop j text)).
Proof.
  unfold has_match, PATTERN_test.
  destruct (PATTERN_exec text 0) as [[m|] i] eqn:He; simpl.
  - apply PATTERN_exec_Some in He as (_ & _ & _ & Hm & _).
    split; [|done]. intros _. eauto.
  - apply PATTERN_exec_None in He as [_ Hn]. split; [done|].
    intros [j [x Hj]]. rewrite Hn in Hj by lia. done.
Qed.

Lemma has_match_false (text : jsstring) :
  has_match text = false ↔ ∀ j, match_here (drop j text) = None.
Proof.
  rewrite <-not_true_iff_false, has_match_true. split.
  - intros Hn j. destruct (match_here (drop j text)) eqn:E; [|done].
    destruct Hn. eauto.
  - intros Hn [j [x Hj]]. by rewrite Hn in Hj.
Qed.

(** The pattern, as the script's comment and the documentation describe
    it, is what [test] looks for. *)
Lemma has_match_contains (text : jsstring) :
  has_match text = true ↔ contains_placeholder text.
Proof.
  rewrite has_match_true. split.
  - intros [j [[sp us] Hj]].
    apply match_here_sound in Hj as (rest & Hd & Hsp & Hus & H5 & _).
    exists (take j text), sp, us, rest. split_and!; try done.
    by rewrite <-Hd, take_drop.
  - intros (pre & sp & us & post & -> & Hsp & Hus & H5).
    exists (length pre). rewrite drop_app_length.
    by rewrite match_here_complete.
Qed.

(** ** All the matches of a text *)

Lemma match_runs_skip (l : jsstring) (k : nat) :
  (∀ j, j < k → match_here (drop j l) = None) →
  match_runs l = match_runs (drop k l).
Proof.
  revert l. induction k as [|k IH]; intros l H; [done|].
  destruct l as [|c l]; [done|]. cbn [match_runs drop].
  pose proof (H 0 ltac:(lia)) as H0. cbn [drop] in H0. rewrite H0. simpl.
  apply IH. intros j Hj. apply (H (S j)). lia.
Qed.

Lemma match_runs_nil (l : jsstring) :
  match_runs l = [] ↔ ∀ j, match_here (drop j l) = None.
Proof.
  induction l as [|c l IH].
  - split; [|done]. intros _ j. by rewrite drop_nil.
  - cbn [match_runs]. split.
    + intros [H1 H2]%app_eq_nil [|j].
      * cbn [drop]. by destruct (match_here (c :: l)) as [[??]|].
      * cbn [drop]. by apply IH.
    + intros H. pose proof (H 0) as H0. cbn [drop] in H0. rewrite H0. simpl.
      apply IH. intros j. apply (H (S j)).
Qed.

Lemma has_match_runs (text : jsstring) :
  has_match text = false ↔ match_runs text = [].
Proof. by rewrite has_match_false, match_runs_nil. Qed.

(** No match starts inside a stretch without a colon. *)
Lemma match_here_no_colon (pre rest : jsstring) (j : nat) :
  colon ∉ pre → j < length pre → match_here (drop j (pre ++ rest)) = None.
Proof.
  intros Hpre Hj. rewrite drop_app_le by lia.
  destruct (drop j pre) as [|c l] eqn:Hd.
  - apply (f_equal length) in Hd. rewrite length_drop in Hd. simpl in Hd. lia.
  - simpl. apply match_here_not_colon. intros ->. apply Hpre.
    apply (subseteq_drop j pre). rewrite Hd. left.
Qed.

Lemma no_colon_in_match (sp us : jsstring) :
  Forall (λ c, is_space c = true) sp →
  Forall (λ c, is_underscore c = true) us →
  colon ∉ sp ++ us.
Proof.
  intros Hsp Hus [H|H]%elem_of_app.
  - eapply Forall_forall in Hsp; [|done]. by rewrite colon_not_space in Hsp.
  - eapply Forall_forall in Hus; [|done].
    by rewrite colon_not_underscore in Hus.
Qed.

(** The matches of a text that starts with a match: this one, then those
    of the text after it. *)
Lemma match_runs_match (l sp us : jsstring) :
  match_here l = Some (sp, us) →
  match_runs l = length us :: match_runs (drop (1 + length sp + length us) l).
Proof.
  intros Hm. pose proof Hm as (rest & -> & Hsp & Hus & _)%match_here_sound.
  cbn [match_runs]. rewrite Hm. simpl. f_equal.
  rewrite (match_runs_skip _ (length sp + length us)).
  - done.
  - intros j Hj. rewrite app_assoc. apply match_here_no_colon.
    + by apply no_colon_in_match.
    + by rewrite length_app.
Qed.

(** A text without underscores holds no match. *)
Lemma has_match_no_underscore (l : jsstring) :
  underscore ∉ l → has_match l = false.
Proof.
  intros Hl. apply has_match_false. intros j.
  destruct (match_here (drop j l)) as [[sp us]|] eqn:Hm; [|done].
  apply match_here_sound in Hm as (rest & Hd & _ & Hus & H5 & _).
  destruct Hus as [|c us Hc _]; simpl in H5; [lia|].
  apply is_underscore_eq in Hc. subst c. destruct Hl.
  apply (subseteq_drop j l). rewrite Hd.
  right. apply elem_of_app. right. left.
Qed.

(** ** The longest run of underscores *)

Lemma longest_run_ge (cur : nat) (l : jsstring) : cur ≤ longest_run cur l.
Proof.
  revert cur. induction l as [|c l IH]; intros cur; simpl; [lia|].
  destruct (is_underscore c); [|lia]. specialize (IH (S cur)). lia.
Qed.

Lemma longest_run_mono (cur cur' : nat) (l : jsstring) :
  cur ≤ cur' → longest_run cur l ≤ longest_run cur' l.
Proof.
  revert cur cur'. induction l as [|c l IH]; intros cur cur' H; simpl; [lia|].
  destruct (is_underscore c); [apply IH|]; lia.
Qed.

Lemma longest_run_run (cur : nat) (us rest : jsstring) :
  Forall (λ c, is_underscore c = true) us →
  cur + length us ≤ longest_run cur (us ++ rest).
Proof.
  intros Hus. revert cur.
  induction Hus as [|c us Hc _ IH]; intros cur; simpl.
  - pose proof (longest_run_ge cur rest). lia.
  - rewrite Hc. specialize (IH (S cur)). lia.
Qed.

Lemma longest_run_skip (cur : nat) (pre l : jsstring) :
  longest_run 0 l ≤ longest_run cur (pre ++ l).
Proof.
  revert cur. induction pre as [|c pre IH]; intros cur; simpl.
  - apply longest_run_mono. lia.
  - destruct (is_underscore c); [apply IH|].
    specialize (IH 0). lia.
Qed.

(** A text with a match holds a run of five underscores or more. *)
Lemma has_match_longest_run (text : jsstring) :
  has_match text = true → 5 ≤ longest_run 0 text.
Proof.
  intros (pre & sp & us & post & -> & Hsp & Hus & H5)%has_match_contains.
  etrans; [|apply longest_run_skip].
  change (colon :: sp ++ us ++ post) with ([colon] ++ sp ++ us ++ post).
  rewrite !app_assoc, <-(app_assoc _ us post).
  etrans; [|apply longest_run_skip].
  pose proof (longest_run_run 0 us post Hus). lia.
Qed.

(** ** The loop of [replaceInTextNode] *)

Lemma while_exec_step (text : jsstring) (st : loop_state) :
  while_exec text st =
  match PATTERN_exec text (l_PATTERN_lastIndex st) with
  | (Some m, i) => while_exec text (loop_body text m i st)
  | (None, i) => mkLoop i (l_lastIndex st) (l_frag st) (l_replaced st)
  end.
Proof.
  funelim (while_exec text st); by rewrite Hexec.
Qed.

(** The rule of the while loop: what every turn preserves holds of the
    variables when the loop is left, which is when [exec] finds no further
    match and has put the cursor of the pattern back to zero. *)
Lemma while_exec_rule (text : jsstring) (Inv : loop_state → Prop) :
  (∀ st m i, Inv st →
     PATTERN_exec text (l_PATTERN_lastIndex st) = (Some m, i) →
     Inv (loop_body text m i st)) →
  ∀ st, Inv st →
    ∃ st', Inv st' ∧
      PATTERN_exec text (l_PATTERN_lastIndex st') = (None, 0) ∧
      while_exec text st
      = mkLoop 0 (l_lastIndex st') (l_frag st') (l_replaced st').
Proof.
  intros Hstep st. funelim (while_exec text st); intros Hinv.
  - eauto.
  - exists st. pose proof Hexec as [-> _]%PATTERN_exec_None. done.
Qed.

Lemma or_empty_id (s : jsstring) : or_empty s = s.
Proof. by destruct s. Qed.

Lemma truthy_nil (s : jsstring) : truthy s = false ↔ s = [].
Proof. by destruct s. Qed.

Lemma loop_inv_init (text : jsstring) : loop_inv text (mkLoop 0 0 [] false).
Proof.
  split_and!; simpl; [done|lia|]. exists []. simpl.
  rewrite take_0, drop_0. split_and!; auto.
Qed.

(** The text between two matches holds no match, or [exec] would have
    found it first. *)
Lemma before_has_no_match (text : jsstring) (cursor idx : nat) :
  (∀ j, cursor ≤ j < idx → match_here (drop j text) = None) →
  has_match (slice text cursor idx) = false.
Proof.
  intros Hnone. apply has_match_false. intros j. unfold slice.
  destruct (decide (j < idx - cursor)) as [Hj|Hj].
  - destruct (match_here (drop j _)) as [x|] eqn:Hm; [|done].
    assert (is_Some (match_here (drop (cursor + j) text))) as [y Hy].
    { rewrite <-drop_drop, <-(take_drop (idx - cursor) (drop cursor text)).
      rewrite drop_app_le.
      - apply match_here_app. by rewrite Hm.
      - destruct (decide (j ≤ length (take (idx - cursor) (drop cursor text))))
          as [|Hn]; [done|].
        rewrite drop_ge in Hm by lia. done. }
    rewrite Hnone in Hy by lia. done.
  - rewrite drop_ge; [done|]. rewrite length_take. lia.
Qed.

Lemma loop_inv_step (text : jsstring) (st : loop_state) (m : regex_match)
    (i : nat) :
  loop_inv text st →
  PATTERN_exec text (l_PATTERN_lastIndex st) = (Some m, i) →
  loop_inv text (loop_body text m i st).
Proof.
  intros (Hcur & Hle & ps & Hfrag & Hjoin & Hok & Hruns & Hne & Hrep) Hexec.
  apply PATTERN_exec_Some in Hexec as (-> & Hidx & Hend & Hm & Hnone).
  rewrite Hcur in Hidx, Hnone. clear Hcur.
  destruct m as [idx sp us]. unfold match_end in *. simpl in Hidx, Hend, Hm, Hnone.
  pose proof Hm as (rest & Hd & Hsp & Hus & H5 & _)%match_here_sound.
  unfold loop_body. cbn [m_index m_1 m_2]. rewrite !or_empty_id.
  set (L := l_lastIndex st) in *. set (before := slice text L idx).
  split_and!; cbn [l_PATTERN_lastIndex l_lastIndex]; [done|done|].
  exists (ps ++ (if truthy before then [PText before] else [])
             ++ [PText (colon :: sp); PField (length us)]).
  cbn [l_frag l_replaced]. split_and!.
  - rewrite Hfrag. destruct (truthy before); rewrite !fmap_app; simpl;
      by rewrite <-?app_assoc.
  - rewrite !fmap_app, !join_app, Hjoin.
    assert (mjoin (text_of_piece <$> (if truthy before then [PText before]
                                       else [])) = before) as ->.
    { destruct (truthy before) eqn:Hb; simpl; [apply app_nil_r|].
      by apply truthy_nil in Hb. }
    simpl. rewrite app_nil_r, <-(Forall_underscore_replicate us) by done.
    rewrite app_assoc. subst before. unfold slice.
    rewrite take_take_drop. replace (L + (idx - L)) with idx by lia.
    replace (idx + 1 + length sp + length us)
      with (idx + (1 + length sp + length us)) by lia.
    rewrite <-take_take_drop, Hd. f_equal.
    simpl. f_equal. rewrite app_assoc. symmetry.
    apply take_app_length'. by rewrite length_app.
  - rewrite !Forall_app. split_and!; [done| |].
    + destruct (truthy before) eqn:Hb; constructor; [|constructor].
      split; [by intros ->|]. by apply before_has_no_match.
    + repeat constructor; [done| |done].
      apply has_match_no_underscore. intros [H|H]%elem_of_cons; [done|].
      eapply Forall_forall in Hsp; [|done].
      by apply space_not_underscore in Hsp.
  - unfold field_runs. rewrite !omap_app. fold (field_runs ps).
    assert (omap (λ p, match p with PField run => Some run | PText _ => None end)
              (if truthy before then [PText before] else []) = []) as ->.
    { by destruct (truthy before). }
    simpl. rewrite <-Hruns, <-app_assoc. f_equal.
    rewrite (match_runs_skip (drop L text) (idx - L)).
    + rewrite drop_drop. replace (L + (idx - L)) with idx by lia.
      rewrite (match_runs_match _ _ _ Hm). simpl. do 2 f_equal.
      rewrite drop_drop. f_equal. lia.
    + intros j Hj. rewrite drop_drop. apply Hnone. lia.
  - right. unfold field_runs. rewrite !omap_app. simpl.
    intros H. apply app_eq_nil in H as [_ H]. by apply app_eq_nil in H as [_ H].
  - symmetry. apply negb_true_iff, bool_decide_eq_false.
    intros H. apply app_eq_nil in H as [_ H]. by apply app_eq_nil in H as [_ H].
Qed.

(** ** The wrapper of a text node *)

Lemma wrapper_shape (text : jsstring) (frag : list node) :
  appendChildren frag
    (setAttribute (str "data-original") text
       (setAttribute (str "class") WRAPPER_CLASS (createElement (str "span"))))
  = Elem (str "span") (wrapper_attrs text) [] frag.
Proof. reflexivity. Qed.

(** [replaceInTextNode] replaces a text node exactly when [test] finds a
    match in its value.  The wrapper is a [span] of class
    [print-fillers-wrapper] that stores the value, and its children read
    as the value, cut into pieces, with one field for each match. *)
Lemma wrapper_for_spec (text : jsstring) :
  match wrapper_for text with
  | Some wrapper =>
      has_match text = true ∧
      ∃ ps, wrapper = Elem (str "span") (wrapper_attrs text) []
                        (node_of_piece <$> ps) ∧
            mjoin (text_of_piece <$> ps) = text ∧
            Forall piece_ok ps ∧
            field_runs ps = match_runs text
  | None => has_match text = false
  end.
Proof.
  unfold wrapper_for. destruct (truthy text) eqn:Ht.
  2:{ apply truthy_nil in Ht. by subst. }
  destruct (while_exec_rule text (loop_inv text) (loop_inv_step text)
              _ (loop_inv_init text)) as (st & Hinv & Hexec & ->).
  destruct Hinv as (Hcur & Hle & ps & Hfrag & Hjoin & Hok & Hruns & Hne & Hrep).
  apply PATTERN_exec_None in Hexec as [_ Hnone]. rewrite Hcur in Hnone.
  assert (Hrest : match_runs (drop (l_lastIndex st) text) = []).
  { apply match_runs_nil. intros j. rewrite drop_drop. apply Hnone. lia. }
  rewrite Hrest, app_nil_r in Hruns. cbn [l_replaced]. rewrite Hrep.
  destruct (bool_decide (ps = [])) eqn:Hps; simpl.
  - apply bool_decide_eq_true in Hps. subst ps.
    apply has_match_runs. by rewrite <-Hruns.
  - apply bool_decide_eq_false in Hps. destruct Hne as [|Hne]; [done|]. split.
    { apply not_false_iff_true. rewrite has_match_runs. by rewrite <-Hruns. }
    set (rem := drop (l_lastIndex st) text).
    exists (ps ++ if truthy rem then [PText rem] else []). split_and!.
    + unfold build_wrapper, slice_from. cbn [l_lastIndex l_frag]. fold rem.
      rewrite wrapper_shape, Hfrag, fmap_app. f_equal.
      destruct (truthy rem); [done|]. by rewrite app_nil_r.
    + rewrite fmap_app, join_app, Hjoin.
      rewrite <-(take_drop (l_lastIndex st) text) at 2. f_equal. fold rem.
      destruct (truthy rem) eqn:Hr; simpl; [apply app_nil_r|].
      by apply truthy_nil in Hr.
    + rewrite Forall_app. split; [done|].
      destruct (truthy rem) eqn:Hr; constructor; [|constructor].
      split; [by intros Hn; rewrite Hn in Hr|]. by apply has_match_runs.
    + unfold field_runs. rewrite omap_app. fold (field_runs ps).
      rewrite Hruns. destruct (truthy rem); apply app_nil_r.
Qed.

Lemma wrapper_for_is_Some (text : jsstring) :
  is_Some (wrapper_for text) ↔ has_match text = true.
Proof.
  pose proof (wrapper_for_spec text) as H.
  destruct (wrapper_for text) as [w|].
  - destruct H as [H _]. split; [done|]. by eexists.
  - rewrite H. split; [by intros [??]|done].
Qed.

(** ** Trees and paths *)

Lemma node_at_app (p q : path) (d : node) :
  node_at (p ++ q) d = node_at p d ≫= node_at q.
Proof.
  revert d. induction p as [|i p IH]; intros d; simpl; [done|].
  destruct d as [| |t a s ks]; try done.
  destruct (ks !! i) as [k|]; simpl; [apply IH|done].
Qed.

Lemma alter_at_None (f : node → node) (p : path) (d : node) :
  node_at p d = None → alter_at f p d = d.
Proof.
  revert d. induction p as [|i p IH]; intros d; simpl; [done|].
  destruct d as [| |t a s ks]; try done.
  intros H. f_equal. destruct (ks !! i) as [k|] eqn:Hk; simpl in H.
  - apply list_eq. intros j. destruct (decide (j = i)) as [->|].
    + rewrite list_lookup_alter_eq, Hk. simpl. by rewrite IH.
    + by rewrite list_lookup_alter_ne.
  - apply list_eq. intros j. destruct (decide (j = i)) as [->|].
    + by rewrite list_lookup_alter_eq, Hk.
    + by rewrite list_lookup_alter_ne.
Qed.

(** Only the value of [f] at the node that is at [p] matters. *)
Lemma alter_at_ext (f g : node → node) (p : path) (d : node) :
  (∀ n, node_at p d = Some n → f n = g n) → alter_at f p d = alter_at g p d.
Proof.
  revert d. induction p as [|i p IH]; intros d H; simpl; [by apply H|].
  destruct d as [| |t a s ks]; try done. f_equal.
  apply list_alter_ext; [|done]. intros k Hk. apply IH. intros n Hn.
  apply H. simpl. by rewrite Hk.
Qed.

Lemma alter_at_same (f : node → node) (p : path) (d n : node) :
  node_at p d = Some n → f n = n → alter_at f p d = d.
Proof.
  intros Hn Hf. transitivity (alter_at id p d).
  - apply alter_at_ext. intros n' Hn'. unfold id. congruence.
  - clear. revert d. induction p as [|i p IH]; intros d; simpl; [done|].
    destruct d as [| |t a s ks]; try done. f_equal.
    apply list_alter_id. intros k. apply IH.
Qed.

Lemma alter_at_replace (f : node → node) (p : path) (d n : node) :
  node_at p d = Some n → alter_at f p d = replace_at p (f n) d.
Proof.
  intros Hn. apply alter_at_ext. intros n' Hn'. congruence.
Qed.

Lemma replace_at_same (p : path) (d n : node) :
  node_at p d = Some n → replace_at p n d = d.
Proof. intros Hn. by apply (alter_at_same _ _ _ n). Qed.

Lemma children_paths_cons (G : node → list path) (i : nat) (l : list node) :
  Forall (λ p, p ≠ []) (children_paths G i l).
Proof.
  revert i. induction l as [|k l IH]; intros i; simpl; [constructor|].
  apply Forall_app. split; [|apply IH]. by apply Forall_fmap, Forall_true.
Qed.

Lemma paths_in_children_eq (sel : node → bool) (i : nat) (l : list node) :
  paths_in_children sel i l = children_paths (paths_where sel) i l.
Proof.
  revert i. induction l as [|k l IH]; intros i; simpl; [done|]. by rewrite IH.
Qed.

Lemma accepted_children_eq (ptag : jsstring) (i : nat) (l : list node) :
  accepted_children ptag i l = children_paths (accepted_paths ptag) i l.
Proof.
  revert i. induction l as [|k l IH]; intros i; simpl; [done|]. by rewrite IH.
Qed.

Lemma paths_where_Elem (sel : node → bool) t a s ks :
  paths_where sel (Elem t a s ks)
  = (if sel (Elem t a s ks) then [[]] else [])
      ++ children_paths (paths_where sel) 0 ks.
Proof. by rewrite <-paths_in_children_eq. Qed.

Lemma accepted_paths_Elem (ptag : jsstring) t a s ks :
  accepted_paths ptag (Elem t a s ks)
  = children_paths (accepted_paths t) 0 ks.
Proof. by rewrite <-accepted_children_eq. Qed.

(** ** Changes at several addresses *)

Section local_changes.
Variable f : node → node.
Let step (d : node) (p : path) : node := alter_at f p d.

Lemma foldl_leaf (n : node) (ps : list path) :
  is_element n = false → Forall (λ p, p ≠ []) ps → foldl step n ps = n.
Proof.
  intros Hn. induction 1 as [|p ps Hp _ IH]; simpl; [done|].
  destruct p as [|i q]; [done|]. unfold step at 2. simpl.
  by destruct n.
Qed.

(** Changes below the child [i] of an element are changes of that child. *)
Lemma foldl_child (i : nat) (qs : list path) t a s (l : list node) :
  foldl step (Elem t a s l) ((i ::.) <$> qs)
  = Elem t a s (alter (λ k, foldl step k qs) i l).
Proof.
  revert l. induction qs as [|q qs IH]; intros l; simpl.
  - by rewrite list_alter_id.
  - unfold step at 2. simpl. rewrite IH. f_equal.
    by rewrite list_alter_alter_eq.
Qed.

Lemma foldl_prefix (r : path) (qs : list path) (d : node) :
  foldl step d ((r ++.) <$> qs) = alter_at (λ n, foldl step n qs) r d.
Proof.
  revert d qs. induction r as [|i r IH]; intros d qs; simpl.
  - by rewrite list_fmap_id.
  - replace ((λ q, i :: r ++ q) <$> qs) with ((i ::.) <$> ((r ++.) <$> qs))
      by (by rewrite <-list_fmap_compose).
    destruct d as [| |t a s ks].
    + apply foldl_leaf; [done|]. by apply Forall_fmap, Forall_true.
    + apply foldl_leaf; [done|]. by apply Forall_fmap, Forall_true.
    + rewrite foldl_child. f_equal.
      apply list_alter_ext; [|done]. intros k _. apply IH.
Qed.

(** Changes below each child in turn change each child on its own. *)
Lemma foldl_children (G : node → list path) (g : node → node) t a s
    (l pre : list node) :
  Forall (λ k, foldl step k (G k) = g k) l →
  foldl step (Elem t a s (pre ++ l)) (children_paths G (length pre) l)
  = Elem t a s (pre ++ (g <$> l)).
Proof.
  intros Hl. revert pre. induction Hl as [|k l Hk _ IH]; intros pre; simpl.
  - done.
  - rewrite foldl_app, foldl_child.
    rewrite alter_app_r_alt by done. rewrite Nat.sub_diag. simpl.
    rewrite Hk. specialize (IH (pre ++ [g k])).
    rewrite length_app, Nat.add_1_r, <-!app_assoc in IH. apply IH.
Qed.
End local_changes.

(** ** Running the functions of the script *)

Lemma world_eta (w : world) :
  mkWorld (dom w) (PATTERN_lastIndex w) (console w) = w.
Proof. by destruct w. Qed.

(** Rewrites a run of a computation built from the monad's operations. *)
Ltac js_unfold :=
  unfold node_ref, PATTERN_set_lastIndex, parentNode, replaceChild,
    console_warn, querySelectorAll, getElementById, PATTERN_test_shared;
  unfold mbind, mret, js_bind, js_ret, gets, modify, throw;
  cbv beta.

(** A call of [replaceInTextNode] on a node that has a parent changes the
    document at that node only, never throws, and leaves the console
    alone. *)
Lemma replaceInTextNode_run (p : path) (w : world) :
  p ≠ [] →
  ∃ cursor b,
    replaceInTextNode p w
    = (mkWorld (replace_step (dom w) p) cursor (console w), Ok b).
Proof.
  intros Hp. unfold replaceInTextNode, replace_step. js_unfold. simpl.
  destruct (node_at p (dom w)) as [n|] eqn:Hn; simpl.
  2:{ exists (PATTERN_lastIndex w), false.
      by rewrite alter_at_None, world_eta. }
  destruct (nodeValue n) as [text|] eqn:Hv; simpl.
  2:{ exists (PATTERN_lastIndex w), false.
      rewrite (alter_at_same _ _ _ n), world_eta; [done|done|].
      unfold replace_value. by rewrite Hv. }
  assert (Hrv : replace_value n = default n (wrapper_for text)).
  { unfold replace_value. rewrite Hv. simpl. by destruct (wrapper_for text). }
  rewrite (alter_at_replace _ _ _ n), Hrv by done. unfold wrapper_for.
  destruct (truthy text) eqn:Ht; simpl.
  2:{ exists (PATTERN_lastIndex w), false.
      by rewrite replace_at_same, world_eta. }
  destruct (l_replaced _) eqn:Hr; simpl.
  - destruct p as [|i q]; [done|]. simpl. eauto.
  - eexists _, false. by rewrite replace_at_same.
Qed.

Lemma forEach_replace_run (ps : list path) (w : world) :
  Forall (λ p, p ≠ []) ps →
  ∃ cursor,
    forEach (λ n, replaceInTextNode n;; mret ()) ps w
    = (mkWorld (foldl replace_step (dom w) ps) cursor (console w), Ok ()).
Proof.
  intros Hps. revert w. induction Hps as [|p ps Hp _ IH]; intros w; simpl.
  - exists (PATTERN_lastIndex w). unfold mret, js_ret. by rewrite world_eta.
  - destruct (replaceInTextNode_run p w Hp) as (c & b & Hrun).
    unfold mbind, js_bind at 1. unfold mbind, js_bind at 1.
    rewrite Hrun. unfold mret at 1, js_ret at 1.
    destruct (IH (mkWorld (replace_step (dom w) p) c (console w)))
      as (c' & Hrest).
    exists c'. exact Hrest.
Qed.

(** [acceptNode] changes nothing but the cursor of the pattern, and
    decides as [accept_at] says. *)
Lemma acceptNode_run (p : path) (w : world) :
  ∃ cursor r,
    acceptNode p w = (mkWorld (dom w) cursor (console w), Ok r) ∧
    accepts r = accept_at (dom w) p.
Proof.
  unfold acceptNode, accept_at. js_unfold. simpl.
  destruct (node_at p (dom w)) as [n|] eqn:Hn; simpl.
  2:{ exists (PATTERN_lastIndex w), FILTER_REJECT. by rewrite world_eta. }
  destruct (nodeValue n) as [value|] eqn:Hv; simpl.
  2:{ exists (PATTERN_lastIndex w), FILTER_REJECT. by rewrite world_eta. }
  unfold accept_text.
  destruct (truthy value) eqn:Ht; simpl.
  2:{ exists (PATTERN_lastIndex w), FILTER_REJECT. rewrite world_eta.
      split; [done|]. destruct p; [done|]. by repeat case_match. }
  destruct (truthy (trim value)) eqn:Htr; simpl.
  2:{ exists (PATTERN_lastIndex w), FILTER_REJECT. rewrite world_eta.
      split; [done|]. destruct p; [done|]. by repeat case_match. }
  destruct p as [|i q].
  { exists (PATTERN_lastIndex w), FILTER_REJECT. rewrite world_eta.
    by destruct (is_element (dom w)). }
  destruct (node_at (removelast (i :: q)) (dom w)) as [par|] eqn:Hpar.
  2:{ exists (PATTERN_lastIndex w), FILTER_REJECT. by rewrite world_eta. }
  destruct par as [d|d|t a s ks].
  1,2: exists (PATTERN_lastIndex w), FILTER_REJECT; by rewrite world_eta.
  change (bool_decide (toLowerCase (tagName (Elem t a s ks)) ∈ skipped_tags))
    with (skipped t).
  destruct (skipped t) eqn:Hsk.
  { exists (PATTERN_lastIndex w), FILTER_REJECT. by rewrite world_eta. }
  cbn [set_lastIndex PATTERN_lastIndex negb andb]. unfold has_match.
  destruct (PATTERN_test value 0) as [found c]. simpl.
  exists c, (if found then FILTER_ACCEPT else FILTER_REJECT).
  split; [done|]. by destruct found.
Qed.

Lemma filterM_accept_run (ps : list path) (w : world) :
  ∃ cursor,
    filterM (λ p, r ← acceptNode p; mret (accepts r)) ps w
    = (mkWorld (dom w) cursor (console w),
       Ok (List.filter (accept_at (dom w)) ps)).
Proof.
  revert w. induction ps as [|p ps IH]; intros w.
  - exists (PATTERN_lastIndex w). simpl. unfold mret, js_ret.
    by rewrite world_eta.
  - destruct (acceptNode_run p w) as (c & r & Hrun & Hr).
    destruct (IH (mkWorld (dom w) c (console w))) as (c' & Hrest).
    exists c'. cbn [filterM List.filter]. unfold mbind, js_bind.
    rewrite Hrun. unfold mret at 1, js_ret at 1.
    unfold mbind, js_bind in Hrest. rewrite Hrest. simpl.
    rewrite <-Hr. unfold mret, js_ret. by destruct (accepts r).
Qed.

Lemma walker_nodes_run (root : path) (w : world) :
  ∃ cursor,
    walker_nodes root w
    = (mkWorld (dom w) cursor (console w),
       Ok (List.filter (accept_at (dom w))
             (descendants_where is_text root (dom w)))).
Proof.
  unfold walker_nodes. unfold mbind at 1, js_bind at 1, gets.
  apply filterM_accept_run.
Qed.

Lemma descendants_where_cons sel (root : path) (d : node) :
  Forall (λ p, p ≠ []) (descendants_where sel root d).
Proof.
  unfold descendants_where. destruct (node_at root d) as [n|]; [|constructor].
  rewrite paths_in_children_eq. apply Forall_fmap.
  eapply Forall_impl; [apply children_paths_cons|].
  intros q Hq. simpl. by destruct root, q.
Qed.

Lemma Forall_list_filter {A} (P : A → Prop) (f : A → bool) (l : list A) :
  Forall P l → Forall P (List.filter f l).
Proof.
  induction 1 as [|x l Hx _ IH]; simpl; [constructor|].
  destruct (f x); [by constructor|done].
Qed.

(** A scan below a node that is there never throws: it changes the
    document by the calls of [replaceInTextNode] on the accepted nodes, in
    document order, and writes nothing to the console. *)
Lemma scan_run_Some (root : path) (w : world) :
  ∃ cursor,
    scan (Some root) w
    = (mkWorld
         (foldl replace_step (dom w)
            (List.filter (accept_at (dom w))
               (descendants_where is_text root (dom w))))
         cursor (console w), Ok ()).
Proof.
  unfold scan, scan_try, try_catch, createTreeWalker.
  unfold mbind at 1, js_bind at 1, mret at 1, js_ret at 1.
  unfold mbind at 1, js_bind at 1.
  destruct (walker_nodes_run root w) as (c & ->).
  set (ps := List.filter _ _).
  destruct (forEach_replace_run ps (mkWorld (dom w) c (console w)))
    as (c' & ->).
  { apply Forall_list_filter, descendants_where_cons. }
  by exists c'.
Qed.

(** A scan from [null] fails inside, and the failure ends in a warning. *)
Lemma scan_run_None (w : world) :
  scan None w = (log_warning scan_warning TypeError w, Ok ()).
Proof. reflexivity. Qed.

(** ** The effect of a scan on the tree *)

Lemma fmap_prefix_child (r : path) (i : nat) (qs : list path) :
  (r ++.) <$> ((i ::.) <$> qs) = ((r ++ [i]) ++.) <$> qs.
Proof.
  rewrite <-list_fmap_compose. apply list_fmap_ext. intros _ q _. simpl.
  by rewrite <-app_assoc.
Qed.

(** The nodes accepted below a node are those [accepted_paths] lists. *)
Lemma filter_accepted (d k : node) :
  ∀ (r : path) (pt : jsstring),
    node_at r d = Some k →
    (is_element k = false →
     r ≠ [] ∧ ∃ a s ks0, node_at (removelast r) d = Some (Elem pt a s ks0)) →
    List.filter (accept_at d) ((r ++.) <$> paths_where is_text k)
    = (r ++.) <$> accepted_paths pt k.
Proof.
  induction k as [v|v|t a s ks IH] using node_tree_ind;
    intros r pt Hk Hpar.
  - destruct Hpar as (Hr & a0 & s0 & ks0 & Hpar); [done|].
    simpl. rewrite app_nil_r. unfold accept_at. rewrite Hk, Hpar. simpl.
    destruct r as [|i r]; [done|].
    destruct (accept_text pt v); simpl; [|done]. by rewrite app_nil_r.
  - done.
  - clear Hpar. rewrite paths_where_Elem, accepted_paths_Elem. simpl.
    assert (Hgen : ∀ l i,
      (∀ j c, l !! j = Some c → ks !! (i + j) = Some c) →
      Forall (λ c, ∀ r pt, node_at r d = Some c →
                (is_element c = false →
                 r ≠ [] ∧ ∃ a s ks0,
                   node_at (removelast r) d = Some (Elem pt a s ks0)) →
                List.filter (accept_at d) ((r ++.) <$> paths_where is_text c)
                = (r ++.) <$> accepted_paths pt c) l →
      List.filter (accept_at d)
        ((r ++.) <$> children_paths (paths_where is_text) i l)
      = (r ++.) <$> children_paths (accepted_paths t) i l).
    { clear IH. intros l. induction l as [|c l IHl]; intros i Hl Hall; [done|].
      apply Forall_cons in Hall as [Hc Hall]. simpl.
      rewrite !fmap_app, List.filter_app. f_equal.
      - rewrite !fmap_prefix_child. apply Hc.
        + rewrite node_at_app, Hk. simpl.
          specialize (Hl 0 c eq_refl). rewrite Nat.add_0_r in Hl.
          by rewrite Hl.
        + intros _. split; [by destruct r|].
          rewrite removelast_last. eauto.
      - apply IHl; [|done]. intros j c' Hj.
        replace (S i + j) with (i + S j) by lia. by apply Hl. }
    apply Hgen; [|done]. by intros j c Hj.
Qed.

(** The nodes a scan below [root] hands to [replaceInTextNode]. *)
Lemma scan_paths (d : node) (root : path) t a s ks :
  node_at root d = Some (Elem t a s ks) →
  List.filter (accept_at d) (descendants_where is_text root d)
  = (root ++.) <$> accepted_paths t (Elem t a s ks).
Proof.
  intros Hroot. unfold descendants_where. rewrite Hroot. simpl childNodes.
  rewrite <-(filter_accepted d (Elem t a s ks) root t Hroot) by done.
  by rewrite paths_where_Elem, paths_in_children_eq.
Qed.

(** The calls of [replaceInTextNode] on the accepted nodes of a subtree
    add up to [scan_tree]. *)
Lemma replace_accepted (pt : jsstring) (n : node) :
  foldl replace_step n (accepted_paths pt n) = scan_tree pt n.
Proof.
  revert pt. induction n as [v|v|t a s ks IH] using node_tree_ind; intros pt.
  - simpl. by destruct (accept_text pt v).
  - done.
  - rewrite accepted_paths_Elem. simpl.
    apply (foldl_children replace_value (accepted_paths t) (scan_tree t)
             t a s ks []).
    eapply Forall_impl; [exact IH|]. intros k Hk. apply Hk.
Qed.

Lemma scan_root_eq (n : node) t a s ks :
  n = Elem t a s ks → scan_root n = scan_tree t n.
Proof. by intros ->. Qed.

(** The effect of a scan on the document: [scan_root] at its root. *)
Lemma scan_effect (d : node) (root : path) :
  foldl replace_step d
    (List.filter (accept_at d) (descendants_where is_text root d))
  = alter_at scan_root root d.
Proof.
  destruct (node_at root d) as [n|] eqn:Hroot.
  2:{ unfold descendants_where. rewrite Hroot. simpl.
      by rewrite alter_at_None. }
  destruct n as [v|v|t a s ks].
  1,2: unfold descendants_where; rewrite Hroot; simpl;
       by rewrite (alter_at_same _ _ _ _ Hroot).
  rewrite (scan_paths _ _ _ _ _ _ Hroot).
  unfold replace_step. rewrite (foldl_prefix replace_value).
  apply alter_at_ext. intros n Hn. rewrite Hroot in Hn. injection Hn as <-.
  apply (replace_accepted t).
Qed.

(** [scan], as a function of the document. *)
Lemma scan_run (root : path) (w : world) :
  ∃ cursor,
    scan (Some root) w
    = (mkWorld (alter_at scan_root root (dom w)) cursor (console w), Ok ()).
Proof.
  destruct (scan_run_Some root w) as (c & Hrun). exists c.
  by rewrite Hrun, scan_effect.
Qed.

(** ** Running [afterPrint] *)

Lemma afterPrint_each_run (p : path) (w : world) :
  p ≠ [] →
  afterPrint_each p w = (set_dom (revert_step (dom w) p) w, Ok ()).
Proof.
  intros Hp. unfold afterPrint_each, revert_step, set_dom. js_unfold. simpl.
  destruct (node_at p (dom w)) as [n|] eqn:Hn; simpl.
  2:{ by rewrite alter_at_None, world_eta. }
  rewrite (alter_at_replace _ _ _ n) by done. unfold revert_node, original_of.
  destruct (getAttribute (str "data-original") n) as [o|]; simpl.
  - by destruct p.
  - by rewrite replace_at_same, world_eta.
Qed.

Lemma forEach_revert_run (ps : list path) (w : world) :
  Forall (λ p, p ≠ []) ps →
  forEach afterPrint_each ps w
  = (set_dom (foldl revert_step (dom w) ps) w, Ok ()).
Proof.
  intros Hps. revert w. induction Hps as [|p ps Hp _ IH]; intros w; simpl.
  - unfold mret, js_ret, set_dom. by rewrite world_eta.
  - unfold mbind, js_bind. rewrite afterPrint_each_run by done.
    by rewrite IH.
Qed.

(** The turns of the loop of [afterPrint] below a node add up to
    [revert_tree]: a wrapper that stores a text becomes that text, and the
    wrappers inside it no longer count. *)
Lemma revert_markers (n : node) :
  foldl revert_step n (paths_where is_marker n) = revert_tree n.
Proof.
  induction n as [v|v|t a s ks IH] using node_tree_ind; [done|done|].
  rewrite paths_where_Elem. cbn [revert_tree]. unfold revertible.
  assert (Hkids :
    foldl revert_step (Elem t a s ks) (children_paths (paths_where is_marker) 0 ks)
    = Elem t a s (revert_tree <$> ks)).
  { apply (foldl_children revert_node (paths_where is_marker) revert_tree
             t a s ks []).
    eapply Forall_impl; [exact IH|]. by intros k Hk. }
  destruct (is_marker (Elem t a s ks)) eqn:Hm; simpl; [|done].
  unfold revert_step at 2. simpl.
  unfold revert_node, original_of. simpl.
  destruct (assoc_get (str "data-original") a) as [o|] eqn:Ho; simpl; [|done].
  apply (foldl_leaf revert_node); [done|]. apply children_paths_cons.
Qed.

(** [afterPrint], as a function of the document.  It throws only when the
    document element itself is a wrapper that stores a text, for a text
    node cannot take the place of the document element. *)
Lemma afterPrint_run (w : world) :
  afterPrint w =
  if revertible (dom w) then (w, Throw HierarchyRequestError)
  else (set_dom (revert_tree (dom w)) w, Ok ()).
Proof.
  unfold afterPrint. js_unfold.
  change (matches_tag_class (str "span") WRAPPER_CLASS) with is_marker.
  rewrite <-revert_markers.
  destruct (dom w) as [v|v|t a s ks] eqn:Hd.
  1,2: simpl; unfold mret, js_ret, set_dom; by rewrite <-Hd, world_eta.
  rewrite paths_where_Elem. unfold revertible.
  destruct (is_marker (Elem t a s ks)) eqn:Hm.
  2:{ cbn [app andb]. rewrite forEach_revert_run by apply children_paths_cons.
      by rewrite Hd. }
  cbn [app forEach foldl andb]. unfold mbind at 1, js_bind at 1.
  unfold afterPrint_each at 1. js_unfold. rewrite Hd.
  unfold revert_step at 2. cbn [node_at alter_at mbind option_bind].
  unfold revert_node, original_of. cbn [getAttribute is_element].
  destruct (assoc_get (str "data-original") a) as [o|] eqn:Ho.
  - cbv beta. rewrite Hd. by rewrite bool_decide_eq_true_2 by eauto.
  - rewrite forEach_revert_run by apply children_paths_cons.
    rewrite Hd. by rewrite bool_decide_eq_false_2 by (by intros [??]).
Qed.

(** * Properties of the specification *)

(** ** Revert without markers *)

(** C7. When the document holds no marker container (no [span] of class
    [print-fillers-wrapper]), [afterPrint] is a no-op: it returns normally
    and leaves the world, and so the document, exactly as it was. *)
Theorem afterPrint_no_markers (w : world) :
  paths_where is_marker (dom w) = [] → afterPrint w = (w, Ok ()).
Proof.
  intros H. unfold afterPrint. js_unfold.
  change (matches_tag_class (str "span") WRAPPER_CLASS) with is_marker.
  by rewrite H.
Qed.

Lemma afterPrint_no_markers_witness :
  paths_where is_marker (dom sample_world) = [] ∧
  afterPrint sample_world = (sample_world, Ok ()).
Proof.
  split; [reflexivity|]. apply afterPrint_no_markers. reflexivity.
Defined.

(** ** Failures inside a scan *)

Lemma try_catch_warn (body : js unit) (w : world) :
  try_catch body (λ err, console_warn scan_warning err) w =
  match body w with
  | (w1, Ok _) => (w1, Ok ())
  | (w1, Throw err) => (log_warning scan_warning err w1, Ok ())
  end.
Proof.
  unfold try_catch. destruct (body w) as [w1 [[]|err]]; done.
Qed.

(** C6. [scan] never throws.  Whatever the [try] block did to the document
    before it failed stays done: the document after [scan] is the document
    the block left, and a failure adds one warning to the console, with
    the message of the script and the exception caught. *)
Theorem scan_never_throws (root : option path) (w : world) :
  ∃ w', scan root w = (w', Ok ()) ∧
        dom w' = dom (scan_try root w).1 ∧
        console w' =
          match (scan_try root w).2 with
          | Ok _ => console (scan_try root w).1
          | Throw err => console (scan_try root w).1 ++ [(scan_warning, err)]
          end.
Proof.
  unfold scan. rewrite try_catch_warn.
  destruct (scan_try root w) as [w1 [[]|err]]; simpl; eauto.
Qed.

(** The block does fail when the document has no body: the scan then
    ends normally, with the document unchanged and a warning logged. *)
Example scan_null_root (w : world) :
  scan_try None w = (w, Throw TypeError) ∧
  scan None w = (log_warning scan_warning TypeError w, Ok ()).
Proof. done. Qed.

(** ** The replacement of [window.print] *)

Section window_print_properties.
Context {value : Type}.
Variable origPrint : list value → js value.
Variable setTimeout : js unit → nat → js unit.

(** C8. The replacement of [window.print] calls the original function
    whatever [beforePrint] did, on the world [beforePrint] left, and
    returns its result whatever [setTimeout] did: an exception of
    [beforePrint] or of [setTimeout] is dropped.  Only an exception of
    the original function itself reaches the caller. *)
Theorem print_always_prints (args : list value) (w : world) :
  print origPrint setTimeout args w =
  match origPrint args (beforePrint w).1 with
  | (w2, Ok res) => ((setTimeout afterPrint 500 w2).1, Ok res)
  | (w2, Throw e) => (w2, Throw e)
  end.
Proof.
  unfold print, try_catch. unfold mbind, js_bind, mret, js_ret.
  destruct (beforePrint w) as [w1 [[]|e1]]; simpl;
    destruct (origPrint args w1) as [w2 [res|e2]]; try done;
    by destruct (setTimeout afterPrint 500 w2) as [w3 [[]|e3]].
Qed.
End window_print_properties.

(** On a document without a [head] the pre-step throws, and so may the
    timer of the host; the original function still runs and its result is
    returned. *)
Example print_despite_failures :
  beforePrint headless_world = (headless_world, Throw TypeError) ∧
  print (λ _ w, (w, Ok 7%N)) (λ _ _ w, (w, Throw (HostError 1))) []
        headless_world
  = (headless_world, Ok 7%N).
Proof. split; reflexivity. Qed.

(** ** Fields and their width *)

Lemma createInputFor_width (run : nat) :
  getStyle (str "width") (createInputFor run)
  = Some (String_of_nat (Nat.max 2 run) ++ str "ch").
Proof. reflexivity. Qed.

Lemma createInputFor_data (run : nat) :
  getAttribute (str "data-underscores") (createInputFor run)
  = Some (String_of_nat run).
Proof. reflexivity. Qed.

Lemma createInputFor_children (run : nat) : childNodes (createInputFor run) = [].
Proof. reflexivity. Qed.

Lemma take_while_replicate (n : nat) (rest : jsstring) :
  (∀ c, head rest = Some c → is_underscore c = false) →
  take_while is_underscore (replicate n underscore ++ rest)
  = replicate n underscore.
Proof.
  intros Hrest. rewrite take_while_app.
  - destruct rest as [|c rest]; simpl; [apply app_nil_r|].
    rewrite (Hrest c eq_refl). apply app_nil_r.
  - apply Forall_replicate. reflexivity.
Qed.

(** The pattern at a colon followed by white space and a run of exactly
    [n] underscores, [n] at least one. *)
Lemma match_here_run (sp rest : jsstring) (n : nat) :
  Forall (λ c, is_space c = true) sp →
  1 ≤ n →
  (∀ c, head rest = Some c → is_underscore c = false) →
  match_here (colon :: sp ++ replicate n underscore ++ rest)
  = if decide (5 ≤ n) then Some (sp, replicate n underscore) else None.
Proof.
  intros Hsp Hn Hrest. simpl.
  assert (take_while is_space (sp ++ replicate n underscore ++ rest) = sp)
    as ->.
  { rewrite take_while_app by done. destruct n; [lia|]. simpl.
    apply app_nil_r. }
  rewrite drop_app_length, take_while_replicate by done.
  rewrite length_replicate. by destruct (decide (5 ≤ n)).
Qed.

(** The wrapper of a text that is just one placeholder. *)
Lemma wrapper_for_single (sp : jsstring) (n : nat) :
  Forall (λ c, is_space c = true) sp →
  5 ≤ n →
  wrapper_for (colon :: sp ++ replicate n underscore)
  = Some (Elem (str "span")
            (wrapper_attrs (colon :: sp ++ replicate n underscore)) []
            [Text (colon :: sp); createInputFor n]).
Proof.
  intros Hsp Hn. set (text := colon :: sp ++ replicate n underscore).
  assert (Hm : match_here text = Some (sp, replicate n underscore)).
  { pose proof (match_here_run sp [] n Hsp) as H.
    rewrite app_nil_r, decide_True in H by done. apply H; [lia|done]. }
  assert (Hlen : length text = 1 + length sp + n).
  { unfold text. simpl. by rewrite length_app, length_replicate. }
  assert (Hloop : while_exec text (mkLoop 0 0 [] false)
                  = mkLoop 0 (length text)
                      [Text (colon :: sp); createInputFor n] true).
  { rewrite while_exec_step. cbn [l_PATTERN_lastIndex].
    unfold PATTERN_exec at 1. rewrite decide_False by lia. rewrite drop_0.
    assert (search_from text 0
            = Some (mkMatch 0 sp (replicate n underscore))) as ->.
    { unfold text at 1. cbn [search_from]. fold text. by rewrite Hm. }
    unfold match_end. cbn [m_index m_1 m_2]. rewrite length_replicate.
    rewrite while_exec_step. unfold loop_body. cbn [l_PATTERN_lastIndex].
    unfold PATTERN_exec. rewrite decide_False by lia.
    rewrite drop_ge by lia. cbn [search_from match_here].
    cbn [l_replaced l_frag l_lastIndex m_index m_1 m_2].
    rewrite !or_empty_id, length_replicate. unfold slice.
    rewrite Hlen. reflexivity. }
  unfold wrapper_for. cbn [truthy text]. rewrite Hloop.
  cbn [l_replaced]. unfold build_wrapper, slice_from. cbn [l_lastIndex l_frag].
  rewrite drop_ge by lia. cbn [truthy]. by rewrite wrapper_shape.
Qed.

(** C2. The pattern at a colon, white space and a run of [n] underscores
    matches exactly when [n] is five or more; a field made for a run of
    [run] underscores is [max 2 run] character units wide.  So a text
    that is one placeholder with exactly five underscores becomes a
    wrapper with one field of width [5ch], and a text whose runs of
    underscores are all shorter than five has no match, and [test],
    [acceptNode] and [replaceInTextNode] make no field for it. *)
Theorem pattern_needs_five_underscores (sp rest : jsstring) (n : nat)
    (Hsp : Forall (λ c, is_space c = true) sp)
    (Hn : 1 ≤ n)
    (Hrest : ∀ c, head rest = Some c → is_underscore c = false) :
  match_here (colon :: sp ++ replicate n underscore ++ rest)
    = (if decide (5 ≤ n) then Some (sp, replicate n underscore) else None) ∧
  (∀ run, getStyle (str "width") (createInputFor run)
          = Some (String_of_nat (Nat.max 2 run) ++ str "ch")) ∧
  wrapper_for (colon :: sp ++ replicate 5 underscore)
    = Some (Elem (str "span")
              (wrapper_attrs (colon :: sp ++ replicate 5 underscore)) []
              [Text (colon :: sp); createInputFor 5]) ∧
  getStyle (str "width") (createInputFor 5) = Some (str "5ch") ∧
  (∀ text, longest_run 0 text < 5 →
     has_match text = false ∧ wrapper_for text = None ∧
     ∀ ptag, accept_text ptag text = false).
Proof.
  split_and!.
  - by apply match_here_run.
  - apply createInputFor_width.
  - by apply wrapper_for_single.
  - reflexivity.
  - intros text Hrun.
    assert (Hno : has_match text = false).
    { destruct (has_match text) eqn:Hm; [|done].
      apply has_match_longest_run in Hm. lia. }
    split_and!; [done| |].
    + pose proof (wrapper_for_spec text) as H.
      destruct (wrapper_for text); [|done]. destruct H as [H _]. congruence.
    + intros ptag. unfold accept_text. rewrite Hno. apply andb_false_r.
Qed.

Lemma pattern_needs_five_underscores_witness :
  match_here (str ": ____")
    = None ∧
  wrapper_for (str ": _____")
    = Some (Elem (str "span") (wrapper_attrs (str ": _____")) []
              [Text (str ": "); createInputFor 5]) ∧
  getStyle (str "width") (createInputFor 5) = Some (str "5ch").
Proof.
  assert (Hsp : Forall (λ c, is_space c = true) (str " ")).
  { repeat constructor. }
  assert (Hrest : ∀ c : N, head (@nil N) = Some c → is_underscore c = false).
  { intros c Hc. discriminate Hc. }
  pose proof (pattern_needs_five_underscores (str " ") [] 4 Hsp
                ltac:(lia) Hrest) as (H4 & _ & H5 & Hw & _).
  split_and!; [exact H4|exact H5|exact Hw].
Defined.

Lemma filter_fields (ps : list piece) :
  List.filter is_element (node_of_piece <$> ps)
  = createInputFor <$> field_runs ps.
Proof.
  induction ps as [|[s|run] ps IH]; [done| |].
  - exact IH.
  - change (createInputFor run :: List.filter is_element (node_of_piece <$> ps)
            = createInputFor run :: (createInputFor <$> field_runs ps)).
    by rewrite IH.
Qed.

Lemma field_runs_ok (ps : list piece) :
  Forall piece_ok ps → Forall (λ run, 5 ≤ run) (field_runs ps).
Proof.
  induction 1 as [|[s|run] ps Hp _ IH]; simpl; [constructor|done|].
  by constructor.
Qed.

(** C10. The fields of a wrapper are, in order, the fields made for the
    matches of the text, each for the length of the underscore run of its
    match.  Every such length is five or more, the field records it in
    [data-underscores], and the width of the field is that many
    character units: the floor of two never applies. *)
Theorem fields_record_their_run (text : jsstring) (wrapper : node) :
  wrapper_for text = Some wrapper →
  List.filter is_element (childNodes wrapper)
    = createInputFor <$> match_runs text ∧
  Forall (λ run,
            5 ≤ run ∧
            getAttribute (str "data-underscores") (createInputFor run)
              = Some (String_of_nat run) ∧
            getStyle (str "width") (createInputFor run)
              = Some (String_of_nat run ++ str "ch"))
         (match_runs text).
Proof.
  intros Hw. pose proof (wrapper_for_spec text) as H. rewrite Hw in H.
  destruct H as (_ & ps & -> & _ & Hok & Hruns). split.
  - simpl. by rewrite filter_fields, Hruns.
  - rewrite <-Hruns. eapply Forall_impl; [by apply field_runs_ok|].
    intros run Hrun. simpl in Hrun.
    split_and!; [done|apply createInputFor_data|].
    rewrite createInputFor_width. by rewrite Nat.max_r by lia.
Qed.

Lemma fields_record_their_run_witness :
  List.filter is_element
    [Text (str "Name"); Text (str ": "); createInputFor 5;
     Text (str " Date"); Text (str ": "); createInputFor 6]
    = createInputFor <$> match_runs sample_text ∧
  match_runs sample_text = [5; 6].
Proof.
  split; [|reflexivity].
  refine (proj1 (fields_record_their_run sample_text
                   (Elem (str "span") (wrapper_attrs sample_text) []
                      [Text (str "Name"); Text (str ": "); createInputFor 5;
                       Text (str " Date"); Text (str ": ");
                       createInputFor 6]) _)).
  reflexivity.
Defined.

(** ** The wrapper of a text node *)

Lemma replaceInTextNode_Text (p : path) (w : world) (text : jsstring)
    (wrapper : node) :
  p ≠ [] →
  node_at p (dom w) = Some (Text text) →
  wrapper_for text = Some wrapper →
  ∃ cursor,
    replaceInTextNode p w
    = (mkWorld (replace_at p wrapper (dom w)) cursor (console w), Ok true).
Proof.
  intros Hp Hn Hw. unfold replaceInTextNode. js_unfold. simpl.
  rewrite Hn. simpl. unfold wrapper_for in Hw.
  destruct (truthy text); [|done]. simpl.
  destruct (l_replaced _); [|done]. injection Hw as <-. simpl.
  destruct p; [done|]. simpl. eauto.
Qed.

(** The successive matches of a text from a position are determined by
    the text. *)
Lemma successive_matches_unique (text : jsstring) (from : nat)
    (ms ms' : list regex_match) :
  successive_matches text from ms →
  successive_matches text from ms' →
  ms = ms'.
Proof.
  intros H. revert ms'.
  induction H as [from Hnone|from m ms Hle Hnone Hm Hrest IH];
    intros ms' H'; inversion H' as [? Hnone'|? m' ms2 Hle' Hnone' Hm' Hrest'];
    subst.
  - done.
  - rewrite Hnone in Hm' by done. discriminate.
  - rewrite Hnone' in Hm by done. discriminate.
  - assert (Hidx : m_index m = m_index m').
    { destruct (Nat.lt_trichotomy (m_index m) (m_index m')) as [Hlt|[?|Hlt]].
      - rewrite Hnone' in Hm by lia. discriminate.
      - done.
      - rewrite Hnone in Hm' by lia. discriminate. }
    assert (m = m') as <-.
    { destruct m, m'. simpl in *. subst. rewrite Hm in Hm'.
      by injection Hm' as <- <-. }
    f_equal. by apply IH.
Qed.

(** The loop goes through the successive matches of the text, and the
    wrapper built from its variables holds their fragment. *)
Lemma while_exec_matches (text : jsstring) (st : loop_state) :
  l_PATTERN_lastIndex st = l_lastIndex st →
  ∃ ms,
    successive_matches text (l_lastIndex st) ms ∧
    build_wrapper text (while_exec text st)
    = Elem (str "span") (wrapper_attrs text) []
        (l_frag st ++ fragment_of text (l_lastIndex st) ms) ∧
    l_replaced (while_exec text st)
    = l_replaced st || negb (bool_decide (ms = [])).
Proof.
  funelim (while_exec text st); intros Hcur.
  - pose proof Hexec as (-> & Hle & _ & Hm & Hnone)%PATTERN_exec_Some.
    rewrite Hcur in Hle, Hnone.
    destruct (H eq_refl) as (ms & Hms & Hwrap & Hrep).
    exists (m :: ms). split_and!.
    + by constructor.
    + rewrite Hwrap. f_equal. unfold loop_body.
      cbn [l_frag l_lastIndex fragment_of]. rewrite !or_empty_id.
      destruct (truthy (slice text (l_lastIndex st) (m_index m)));
        by rewrite <-?app_assoc.
    + rewrite Hrep. unfold loop_body. cbn [l_replaced].
      by rewrite orb_true_r.
  - pose proof Hexec as [_ Hnone]%PATTERN_exec_None. rewrite Hcur in Hnone.
    exists []. split_and!.
    + by constructor.
    + unfold build_wrapper. cbn [l_lastIndex l_frag fragment_of].
      rewrite wrapper_shape. f_equal.
      destruct (truthy (slice_from text (l_lastIndex st)));
        [done|by rewrite app_nil_r].
    + cbn [l_replaced]. by rewrite orb_false_r.
Qed.

(** C3. When [replaceInTextNode] replaces a text node, it puts one
    wrapper in its place, which stores the text.  The children of the
    wrapper are made from the successive matches of the text, which the
    text determines: for each match, from left to right, a text node with
    the text since the match before it (if there is any), a text node with
    the colon and the white space of the match, and a field for its run of
    underscores; then a text node with the text after the last match (if
    there is any).  Read from left to right, with each field read as its
    run of underscores, the children give back the text.  For
    "Name: _____ Date: ______" the children are six nodes: the text nodes
    "Name" and ": ", a field of width 5ch, the text nodes " Date" and
    ": ", and a field of width 6ch. *)
Theorem replaceInTextNode_pieces (text : jsstring) (wrapper : node) :
  wrapper_for text = Some wrapper →
  (∃ ms, ms ≠ [] ∧
         successive_matches text 0 ms ∧
         (∀ ms', successive_matches text 0 ms' → ms' = ms) ∧
         wrapper = Elem (str "span") (wrapper_attrs text) []
                     (fragment_of text 0 ms)) ∧
  (∃ ps, wrapper = Elem (str "span") (wrapper_attrs text) []
                     (node_of_piece <$> ps) ∧
         mjoin (text_of_piece <$> ps) = text ∧
         Forall piece_ok ps ∧
         field_runs ps = match_runs text) ∧
  is_marker wrapper = true ∧
  original_of wrapper = Some text ∧
  (∀ w p, p ≠ [] → node_at p (dom w) = Some (Text text) →
     ∃ cursor,
       replaceInTextNode p w
       = (mkWorld (replace_at p wrapper (dom w)) cursor (console w),
          Ok true)) ∧
  wrapper_for sample_text
    = Some (Elem (str "span") (wrapper_attrs sample_text) []
              [Text (str "Name"); Text (str ": "); createInputFor 5;
               Text (str " Date"); Text (str ": "); createInputFor 6]) ∧
  getStyle (str "width") (createInputFor 5) = Some (str "5ch") ∧
  getStyle (str "width") (createInputFor 6) = Some (str "6ch").
Proof.
  intros Hw. pose proof (wrapper_for_spec text) as H. rewrite Hw in H.
  destruct H as (_ & ps & Hps & Hjoin & Hok & Hruns).
  assert (Hms : ∃ ms, ms ≠ [] ∧ successive_matches text 0 ms ∧
                  wrapper = Elem (str "span") (wrapper_attrs text) []
                              (fragment_of text 0 ms)).
  { unfold wrapper_for in Hw. destruct (truthy text); [|done].
    destruct (while_exec_matches text (mkLoop 0 0 [] false) eq_refl)
      as (ms & Hms & Hwrap & Hrep).
    rewrite Hrep in Hw. cbn [l_replaced l_frag l_lastIndex] in *.
    destruct (bool_decide (ms = [])) eqn:Hnil; [done|].
    apply bool_decide_eq_false in Hnil. simpl in Hw.
    injection Hw as <-. by exists ms. }
  destruct Hms as (ms & Hne & Hms & Hwrap).
  split_and!; try reflexivity.
  - exists ms. split_and!; try done.
    intros ms' Hms'. by apply (successive_matches_unique text 0).
  - by exists ps.
  - by rewrite Hwrap.
  - by rewrite Hwrap.
  - intros w p Hp Hn. by apply (replaceInTextNode_Text p w text).
Qed.

Lemma replaceInTextNode_pieces_witness :
  ∃ cursor,
    replaceInTextNode [1; 0; 0] sample_world
    = (mkWorld
         (elem "html"
            [elem "head" [];
             elem "body"
               [elem "p"
                  [Elem (str "span") (wrapper_attrs sample_text) []
                     [Text (str "Name"); Text (str ": "); createInputFor 5;
                      Text (str " Date"); Text (str ": ");
                      createInputFor 6]]]])
         cursor [], Ok true).
Proof.
  refine (proj1 (proj2 (proj2 (proj2 (proj2
            (replaceInTextNode_pieces sample_text _ _)))))
            sample_world [1; 0; 0] _ _);
    [reflexivity|discriminate|reflexivity].
Defined.

(** Underscores before the colon are not part of a match: in
    "______: _____" they stay text, and the field stands for the five
    underscores after the colon. *)
Example replaceInTextNode_underscores_before_colon :
  wrapper_for (str "______: _____")
  = Some (Elem (str "span") (wrapper_attrs (str "______: _____")) []
            [Text (str "______"); Text (str ": "); createInputFor 5]).
Proof. reflexivity. Qed.

(** Two placeholders side by side get a field each, and nothing is put
    between them but the colon of the second. *)
Example replaceInTextNode_adjacent_placeholders :
  wrapper_for (str "a:_____:  ______b")
  = Some (Elem (str "span") (wrapper_attrs (str "a:_____:  ______b")) []
            [Text (str "a"); Text (str ":"); createInputFor 5;
             Text (str ":  "); createInputFor 6; Text (str "b")]).
Proof. reflexivity. Qed.

(** The wrapper of the sample text has six children, not four: the text
    before a match and the colon with its white space are two text
    nodes, so there is no text node "Name: " in it. *)
Lemma sample_marker_has_six_children :
  ¬ sample_marker_has_four_children.
Proof.
  intros (t & a & s & field1 & field2 & H).
  vm_compute in H. discriminate H.
Qed.

(** ** Text nodes that pass the tests of [acceptNode] *)

Lemma elem_of_drop_while {A} (p : A → bool) (c : A) (l : list A) :
  c ∈ l → p c = false → c ∈ drop_while p l.
Proof.
  intros Hc Hp. induction l as [|x l IH]; simpl; [done|].
  destruct (p x) eqn:Hx; [|done].
  apply elem_of_cons in Hc as [->|Hc]; [congruence|by apply IH].
Qed.

Lemma trim_truthy (s : jsstring) (c : N) :
  c ∈ s → is_space c = false → truthy (trim s) = true.
Proof.
  intros Hc Hs. assert (c ∈ trim s) as Hin.
  { unfold trim. apply elem_of_reverse, elem_of_drop_while; [|done].
    by apply elem_of_reverse, elem_of_drop_while. }
  by destruct (trim s); [apply elem_of_nil in Hin|].
Qed.

(** A text with a match is not empty, and not white space only, so
    [acceptNode] decides on the name of the parent alone. *)
Lemma accept_text_match (ptag text : jsstring) :
  has_match text = true → accept_text ptag text = negb (skipped ptag).
Proof.
  intros Hm. unfold accept_text. rewrite Hm, andb_true_r.
  apply has_match_contains in Hm as (pre & sp & us & post & -> & _).
  assert (colon ∈ pre ++ colon :: sp ++ us ++ post) as Hin.
  { apply elem_of_app. right. left. }
  rewrite (trim_truthy _ colon Hin colon_not_space).
  by destruct pre.
Qed.

(** ** Looking up nodes after a change *)

Lemma node_at_alter_at_app (f : node → node) (r q : path) (d : node) :
  node_at (r ++ q) (alter_at f r d) = node_at r d ≫= λ n, node_at q (f n).
Proof.
  revert d. induction r as [|i r IH]; intros d; simpl; [done|].
  destruct d as [| |t a s ks]; try done.
  rewrite list_lookup_alter_eq. destruct (ks !! i) as [k|]; simpl; [|done].
  apply IH.
Qed.

(** A change at [r] is not seen from an address that is neither below
    nor above [r]. *)
Lemma node_at_alter_at_frame (f : node → node) (r p : path) (d : node) :
  ¬ r `prefix_of` p → ¬ p `prefix_of` r →
  node_at p (alter_at f r d) = node_at p d.
Proof.
  revert p d. induction r as [|i r IH]; intros p d Hrp Hpr.
  - destruct Hrp. apply prefix_nil.
  - destruct p as [|j p]; [destruct Hpr; apply prefix_nil|].
    destruct d as [| |t a s ks]; try done. simpl.
    destruct (decide (i = j)) as [->|Hij].
    + rewrite list_lookup_alter_eq. destruct (ks !! j) as [k|]; simpl; [|done].
      apply IH.
      * intros Hp. apply Hrp. by apply prefix_cons.
      * intros Hp. apply Hpr. by apply prefix_cons.
    + by rewrite list_lookup_alter_ne.
Qed.

Lemma removelast_app_ne (r q : path) :
  q ≠ [] → removelast (r ++ q) = r ++ removelast q.
Proof. intros Hq. by apply removelast_app. Qed.

(** A text node of a tree after [scan_tree]: what [acceptNode] and
    [replaceInTextNode] make of it, given the name of its parent. *)
Lemma node_at_scan_tree (q : path) (n : node) (pt v t : jsstring) a s ks :
  q ≠ [] →
  node_at q n = Some (Text v) →
  node_at (removelast q) n = Some (Elem t a s ks) →
  node_at q (scan_tree pt n) = Some (scan_tree t (Text v)).
Proof.
  revert n pt. induction q as [|i q IH]; intros n pt Hq Hn Hpar; [done|].
  destruct n as [| |t0 a0 s0 ks0]; try done.
  cbn [scan_tree node_at] in *. rewrite list_lookup_fmap.
  destruct (ks0 !! i) as [k|] eqn:Hk; simpl in *; [|done].
  destruct q as [|j q].
  - simpl in *. injection Hn as ->. by injection Hpar as -> _ _ _.
  - apply IH; [done|done|]. cbn [removelast node_at] in Hpar.
    by rewrite Hk in Hpar.
Qed.

Lemma is_below_app (root p : path) :
  is_below root p = true ↔ ∃ q, q ≠ [] ∧ p = root ++ q.
Proof.
  unfold is_below. rewrite andb_true_iff, negb_true_iff,
    bool_decide_eq_true, bool_decide_eq_false. split.
  - intros [[q ->] Hne]. exists q. split; [|done]. intros ->.
    by rewrite app_nil_r in Hne.
  - intros (q & Hq & ->). split; [by exists q|]. intros H. apply Hq.
    apply (f_equal length) in H. rewrite length_app in H.
    apply length_zero_iff_nil. lia.
Qed.

(** A text node of the document after a scan below [root]: replaced if
    it is below the root and accepted, and as it was otherwise. *)
Lemma node_at_scanned (d : node) (root p : path) (v t : jsstring) a s ks :
  p ≠ [] →
  node_at p d = Some (Text v) →
  node_at (removelast p) d = Some (Elem t a s ks) →
  node_at p (alter_at scan_root root d)
  = Some (if is_below root p && accept_text t v
          then replace_value (Text v) else Text v).
Proof.
  intros Hp Hn Hpar. destruct (is_below root p) eqn:Hb; simpl.
  - apply is_below_app in Hb as (q & Hq & ->).
    rewrite node_at_alter_at_app. rewrite node_at_app in Hn.
    rewrite removelast_app_ne, node_at_app in Hpar by done.
    destruct (node_at root d) as [n|]; simpl in *; [|done].
    destruct n as [| |t0 a0 s0 ks0]; [by destruct q|by destruct q|].
    rewrite (scan_root_eq _ t0 a0 s0 ks0) by done.
    by erewrite node_at_scan_tree.
  - destruct (decide (root `prefix_of` p)) as [[q ->]|Hrp].
    + assert (q = []) as ->.
      { destruct q; [done|]. exfalso.
        assert (is_below root (root ++ n :: q) = true) as Hb'
          by (apply is_below_app; by exists (n :: q)).
        congruence. }
      rewrite app_nil_r in *. by rewrite (alter_at_same _ _ _ _ Hn).
    + destruct (decide (p `prefix_of` root)) as [[q ->]|Hpr].
      * rewrite alter_at_None; [done|]. rewrite node_at_app, Hn. simpl.
        destruct q; [|done]. destruct Hrp. by rewrite app_nil_r.
      * by rewrite node_at_alter_at_frame.
Qed.

(** ** Text under skipped elements *)

(** C4, for the parent of the text node.  A text node whose parent is
    an element that [acceptNode] skips ([script], [style], [textarea],
    [code], [pre], [input], [select], [button], [svg], in any letter
    case) is the same text node after a scan, whatever its value and
    whatever the root of the scan. *)
Theorem scan_spares_children_of_skipped (w : world) (root : option path)
    (p : path) (v t : jsstring) a s ks :
  p ≠ [] →
  node_at p (dom w) = Some (Text v) →
  node_at (removelast p) (dom w) = Some (Elem t a s ks) →
  toLowerCase (tagName (Elem t a s ks)) ∈ skipped_tags →
  ∃ w1, scan root w = (w1, Ok ()) ∧ node_at p (dom w1) = Some (Text v).
Proof.
  intros Hp Hn Hpar Hskip. destruct root as [r|].
  - destruct (scan_run r w) as (c & ->). eexists. split; [done|]. simpl.
    rewrite (node_at_scanned _ _ _ v t a s ks) by done.
    unfold accept_text, skipped. simpl in Hskip.
    rewrite (bool_decide_eq_true_2 _ Hskip). simpl.
    by rewrite andb_false_r, andb_false_r.
  - rewrite scan_run_None. by eexists.
Qed.

Lemma scan_spares_children_of_skipped_witness :
  ∃ w1, scan (body_of (dom code_world)) code_world = (w1, Ok ()) ∧
        node_at [1; 0; 0] (dom w1) = Some (Text (str "x: _____")).
Proof.
  apply (scan_spares_children_of_skipped code_world _ [1; 0; 0]
           (str "x: _____") (str "code") [] [] [Text (str "x: _____")]).
  - discriminate.
  - reflexivity.
  - reflexivity.
  - vm_compute. do 3 right. left.
Defined.

(** The text node of [<pre><b>x: _____</b></pre>] is inside a [pre], but
    its parent is the [b]: the scan replaces it. *)
Example scan_replaces_grandchild_of_pre :
  node_at [1; 0; 0; 0] (dom nested_world) = Some (Text (str "x: _____")) ∧
  (tagName <$> node_at [1; 0] (dom nested_world)) = Some (str "PRE") ∧
  node_at [1; 0; 0; 0] (dom (scan (body_of (dom nested_world)) nested_world).1)
  = Some (Elem (str "span") (wrapper_attrs (str "x: _____")) []
            [Text (str "x"); Text (str ": "); createInputFor 5]).
Proof. split_and!; reflexivity. Qed.

(** The same happens to the text of an [option] of a [select]. *)
Example scan_replaces_option_text :
  node_at [1; 0; 0; 0] (dom (scan (body_of (dom select_world)) select_world).1)
  = Some (Elem (str "span") (wrapper_attrs (str "Pick: _____")) []
            [Text (str "Pick"); Text (str ": "); createInputFor 5]).
Proof. reflexivity. Qed.

(** So a scan does not spare every text node that has a skipped element
    among its ancestors. *)
Lemma scan_replaces_descendant_of_skipped :
  ¬ scan_spares_descendants_of_skipped.
Proof.
  intros H.
  specialize (H nested_world (body_of (dom nested_world)) [1; 0; 0; 0] [1; 0]
                (str "x: _____") (str "pre") [] []
                [elem "b" [Text (str "x: _____")]] eq_refl).
  specialize (H ltac:(vm_compute; do 2 right; left) eq_refl eq_refl).
  specialize (H _ eq_refl). vm_compute in H. discriminate H.
Qed.

(** ** Reverting a scanned document *)

Lemma children_paths_nil (G : node → list path) (i : nat) (l : list node) :
  children_paths G i l = [] ↔ Forall (λ k, G k = []) l.
Proof.
  revert i. induction l as [|k l IH]; intros i; simpl.
  - split; [constructor|done].
  - split.
    + intros [H1 H2]%app_eq_nil. apply fmap_nil_inv in H1.
      constructor; [done|]. by eapply IH.
    + intros [-> Hl]%Forall_cons. simpl. by apply IH.
Qed.

Lemma paths_where_nil (sel : node → bool) t a s ks :
  paths_where sel (Elem t a s ks) = [] ↔
  sel (Elem t a s ks) = false ∧ Forall (λ k, paths_where sel k = []) ks.
Proof.
  rewrite paths_where_Elem, <-children_paths_nil.
  destruct (sel (Elem t a s ks)); simpl; [|by intuition]. split; [done|].
  by intros [? _].
Qed.

Lemma paths_where_mono (sel sel' : node → bool) (n : node) :
  (∀ m, sel m = true → sel' m = true) →
  paths_where sel' n = [] → paths_where sel n = [].
Proof.
  intros Hsel. induction n as [v|v|t a s ks IH] using node_tree_ind.
  - simpl. destruct (sel (Text v)) eqn:H; [|done].
    by rewrite (Hsel _ H).
  - simpl. destruct (sel (Comment v)) eqn:H; [|done].
    by rewrite (Hsel _ H).
  - rewrite !paths_where_nil. intros [Hroot Hks]. split.
    + destruct (sel _) eqn:H; [|done]. by rewrite (Hsel _ H) in Hroot.
    + rewrite Forall_forall in IH, Hks |- *. intros k Hk.
      apply IH; [done|]. by apply Hks.
Qed.

Lemma revertible_is_marker (n : node) : revertible n = true → is_marker n = true.
Proof. unfold revertible. by intros [? _]%andb_true_iff. Qed.

(** A tree without wrappers that store a text is its own reversal. *)
Lemma revert_tree_free (n : node) :
  paths_where revertible n = [] → revert_tree n = n.
Proof.
  induction n as [v|v|t a s ks IH] using node_tree_ind; [done|done|].
  rewrite paths_where_nil. intros [Hroot Hks]. cbn [revert_tree].
  rewrite Hroot. f_equal. rewrite <-(list_fmap_id ks) at 2.
  apply list_fmap_ext. intros i k Hk.
  rewrite Forall_forall in IH, Hks.
  assert (k ∈ ks) by (by eapply list_elem_of_lookup_2). by apply IH, Hks.
Qed.

Lemma revert_wrapper (text : jsstring) (kids : list node) :
  revert_tree (Elem (str "span") (wrapper_attrs text) [] kids) = Text text.
Proof. reflexivity. Qed.

Lemma replace_value_cases (v : jsstring) :
  (replace_value (Text v) = Text v ∧ has_match v = false) ∨
  ∃ ps, replace_value (Text v)
        = Elem (str "span") (wrapper_attrs v) [] (node_of_piece <$> ps) ∧
        Forall piece_ok ps ∧ has_match v = true.
Proof.
  unfold replace_value. simpl. pose proof (wrapper_for_spec v) as H.
  destruct (wrapper_for v) as [wrapper|]; [|by left].
  destruct H as (Hm & ps & -> & _ & Hok & _). right. by exists ps.
Qed.

(** Reverting undoes a scan of a tree that held no wrapper. *)
Lemma revert_scan_tree (pt : jsstring) (n : node) :
  paths_where is_marker n = [] → revert_tree (scan_tree pt n) = n.
Proof.
  revert pt. induction n as [v|v|t a s ks IH] using node_tree_ind; intros pt.
  - intros _. cbn [scan_tree]. destruct (accept_text pt v); [|done].
    destruct (replace_value_cases v) as [[-> _]|(ps & -> & _)]; [done|].
    apply revert_wrapper.
  - done.
  - rewrite paths_where_nil. intros [Hroot Hks]. cbn [scan_tree revert_tree].
    assert (revertible (Elem t a s (scan_tree t <$> ks)) = false) as ->.
    { unfold revertible.
      change (is_marker (Elem t a s (scan_tree t <$> ks)))
        with (is_marker (Elem t a s ks)). by rewrite Hroot. }
    f_equal. rewrite <-list_fmap_compose. rewrite <-(list_fmap_id ks) at 2.
    apply list_fmap_ext. intros i k Hk. simpl.
    rewrite Forall_forall in IH, Hks.
    assert (k ∈ ks) by (by eapply list_elem_of_lookup_2). by apply IH, Hks.
Qed.

Lemma is_marker_scanned (root : path) (d : node) :
  is_marker (alter_at scan_root root d) = is_marker d.
Proof. destruct root, d; reflexivity. Qed.

Lemma revert_scanned (root : path) (d : node) :
  paths_where is_marker d = [] →
  revert_tree (alter_at scan_root root d) = d.
Proof.
  revert d. induction root as [|i r IH]; intros d Hd.
  - simpl. destruct d as [v|v|t a s ks]; [done|done|].
    by apply (revert_scan_tree t (Elem t a s ks)).
  - destruct d as [v|v|t a s ks]; [done|done|].
    apply paths_where_nil in Hd as [Hroot Hks]. cbn [alter_at revert_tree].
    assert (revertible (Elem t a s (alter (alter_at scan_root r) i ks)) = false)
      as ->.
    { unfold revertible.
      change (is_marker (Elem t a s (alter (alter_at scan_root r) i ks)))
        with (is_marker (Elem t a s ks)). by rewrite Hroot. }
    f_equal. apply list_eq. intros j. rewrite list_lookup_fmap.
    rewrite Forall_forall in Hks.
    destruct (decide (i = j)) as [->|Hij].
    + rewrite list_lookup_alter_eq. destruct (ks !! j) as [k|] eqn:Hk; [|done].
      simpl. f_equal. apply IH, Hks. by eapply list_elem_of_lookup_2.
    + rewrite list_lookup_alter_ne by done.
      destruct (ks !! j) as [k|] eqn:Hk; [|done]. simpl. f_equal.
      apply revert_tree_free.
      apply (paths_where_mono _ _ _ revertible_is_marker), Hks.
      by eapply list_elem_of_lookup_2.
Qed.

(** C1. On a document that holds no marker container yet, a scan followed
    by [afterPrint] gives back the document, node for node and character
    for character, and neither of them throws.  In between, every text
    node below the root of the scan whose value contains a placeholder
    and whose parent is not skipped is a [span] of class
    [print-fillers-wrapper] whose [data-original] attribute holds the
    value of the text node; [afterPrint] puts a text node with that value
    in its place. *)
Theorem scan_then_afterPrint (w : world) (root : option path) :
  paths_where is_marker (dom w) = [] →
  ∃ w1 w2,
    scan root w = (w1, Ok ()) ∧
    afterPrint w1 = (w2, Ok ()) ∧
    dom w2 = dom w ∧
    ∀ r p text t a s ks,
      root = Some r → is_below r p = true →
      node_at p (dom w) = Some (Text text) →
      node_at (removelast p) (dom w) = Some (Elem t a s ks) →
      skipped t = false →
      contains_placeholder text →
      (∃ kids, node_at p (dom w1)
               = Some (Elem (str "span") (wrapper_attrs text) [] kids)) ∧
      (node_at p (dom w1) ≫= original_of) = Some text ∧
      node_at p (dom w2) = Some (Text text).
Proof.
  intros Hfree.
  assert (Hmark : is_marker (dom w) = false).
  { destruct (dom w) as [| |t a s ks]; try done.
    by apply paths_where_nil in Hfree as [Hf _]. }
  assert (Hrev : revertible (dom w) = false).
  { unfold revertible. by rewrite Hmark. }
  destruct root as [r|].
  - destruct (scan_run r w) as (c & Hscan). rewrite Hscan.
    eexists _, _. split; [done|]. rewrite afterPrint_run. cbn [dom].
    assert (revertible (alter_at scan_root r (dom w)) = false) as ->.
    { unfold revertible. by rewrite is_marker_scanned, Hmark. }
    split; [done|]. cbn [set_dom dom]. rewrite revert_scanned by done.
    split; [done|].
    intros r' p text t a s ks [= <-] Hb Hn Hpar Hskip Hph.
    assert (Hp : p ≠ []).
    { apply is_below_app in Hb as (q & Hq & ->). by destruct r, q. }
    rewrite (node_at_scanned _ _ _ text t a s ks) by done.
    apply has_match_contains in Hph.
    rewrite Hb, accept_text_match, Hskip by done. simpl.
    destruct (replace_value_cases text) as [[_ Hno]|(ps & -> & _)];
      [congruence|].
    split_and!; [by eexists|done|done].
  - rewrite scan_run_None. eexists _, _. split; [done|].
    rewrite afterPrint_run. cbn [log_warning dom]. rewrite Hrev.
    split; [done|]. cbn [set_dom dom].
    rewrite revert_tree_free
      by (by apply (paths_where_mono _ _ _ revertible_is_marker)).
    split; [done|]. by intros r p text t a s ks [=].
Qed.

Lemma scan_then_afterPrint_witness :
  ∃ w1 w2,
    scan (body_of (dom sample_world)) sample_world = (w1, Ok ()) ∧
    afterPrint w1 = (w2, Ok ()) ∧
    dom w2 = dom sample_world ∧
    (node_at [1; 0; 0] (dom w1) ≫= original_of) = Some sample_text ∧
    node_at [1; 0; 0] (dom w2) = Some (Text sample_text).
Proof.
  destruct (scan_then_afterPrint sample_world (body_of (dom sample_world))
              eq_refl) as (w1 & w2 & Hscan & Hafter & Hdom & Hnodes).
  exists w1, w2. split_and!; [exact Hscan|exact Hafter|exact Hdom| |].
  - refine (proj1 (proj2 (Hnodes [1] [1; 0; 0] sample_text (str "p") [] []
                            [Text sample_text] eq_refl eq_refl eq_refl eq_refl
                            eq_refl _))).
    exists (str "Name"), (str " "), (str "_____"), (str " Date: ______").
    split_and!; [reflexivity| | |simpl; lia]; repeat constructor.
  - refine (proj2 (proj2 (Hnodes [1] [1; 0; 0] sample_text (str "p") [] []
                            [Text sample_text] eq_refl eq_refl eq_refl eq_refl
                            eq_refl _))).
    exists (str "Name"), (str " "), (str "_____"), (str " Date: ______").
    split_and!; [reflexivity| | |simpl; lia]; repeat constructor.
Defined.

(** ** Wrappers without a stored text *)

Lemma ancestor_paths_cons (i : nat) (p : path) :
  ancestor_paths (i :: p) = [] :: ((i ::.) <$> ancestor_paths p).
Proof.
  unfold ancestor_paths. simpl. f_equal.
  rewrite <-fmap_S_seq, <-!list_fmap_compose. by apply list_fmap_ext.
Qed.

(** Below ancestors that are not reverted, the node at an address of the
    reverted tree is the reversal of the node that was there. *)
Lemma node_at_revert_tree (p : path) (d : node) :
  Forall (λ q, ∀ n, node_at q d = Some n → revertible n = false)
         (ancestor_paths p) →
  node_at p (revert_tree d) = revert_tree <$> node_at p d.
Proof.
  revert d. induction p as [|i p IH]; intros d Hanc; [done|].
  rewrite ancestor_paths_cons in Hanc. apply Forall_cons in Hanc as [Hd Hanc].
  specialize (Hd d eq_refl).
  destruct d as [v|v|t a s ks]; [done|done|].
  cbn [revert_tree]. rewrite Hd. cbn [node_at].
  rewrite list_lookup_fmap. destruct (ks !! i) as [k|] eqn:Hk; simpl; [|done].
  apply IH. rewrite Forall_fmap in Hanc.
  eapply Forall_impl; [exact Hanc|]. intros q Hq n Hn. apply Hq.
  simpl. by rewrite Hk.
Qed.

(** C9. [afterPrint] replaces the wrappers that store a text, and only
    those: its effect on the document is [revert_tree].  An element
    without a [data-original] attribute, whether or not it has the class
    of a wrapper, and none of whose ancestors is reverted, is still at
    its place afterwards, with its name and attributes; its children are
    reverted in turn, so it is untouched as a whole when it holds no
    wrapper that stores a text, as when it holds text and fields only.
    [afterPrint] does not throw. *)
Theorem afterPrint_keeps_without_original (w : world) (p : path) t a s ks :
  node_at p (dom w) = Some (Elem t a s ks) →
  assoc_get (str "data-original") a = None →
  Forall (λ q, ∀ n, node_at q (dom w) = Some n → revertible n = false)
         (ancestor_paths p) →
  ∃ w', afterPrint w = (w', Ok ()) ∧
        dom w' = revert_tree (dom w) ∧
        node_at p (dom w') = Some (Elem t a s (revert_tree <$> ks)) ∧
        (paths_where revertible (Elem t a s ks) = [] →
         node_at p (dom w') = Some (Elem t a s ks)).
Proof.
  intros Hn Ho Hanc.
  assert (Hself : revertible (Elem t a s ks) = false).
  { unfold revertible, original_of. simpl. rewrite Ho.
    apply andb_false_r. }
  assert (Hroot : revertible (dom w) = false).
  { destruct p as [|i p].
    - injection Hn as ->. done.
    - rewrite ancestor_paths_cons in Hanc.
      apply Forall_cons in Hanc as [Hd _]. by apply Hd. }
  rewrite afterPrint_run, Hroot. eexists. split; [done|]. cbn [set_dom dom].
  split; [done|]. rewrite node_at_revert_tree, Hn by done.
  cbn [fmap option_fmap option_map revert_tree]. rewrite Hself.
  split; [done|]. intros Hfree.
  pose proof (revert_tree_free _ Hfree) as Hrt. cbn [revert_tree] in Hrt.
  rewrite Hself in Hrt. by rewrite Hrt.
Qed.

Lemma afterPrint_keeps_without_original_witness :
  ∃ w', afterPrint stray_world = (w', Ok ()) ∧
        node_at [1; 0] (dom w') = Some stray_wrapper.
Proof.
  destruct (afterPrint_keeps_without_original stray_world [1; 0]
              (str "span") [(str "class", WRAPPER_CLASS)] []
              [Text (str "Name: "); createInputFor 5])
    as (w' & Hrun & _ & _ & Hsame).
  - reflexivity.
  - reflexivity.
  - repeat constructor; intros n [= <-]; reflexivity.
  - exists w'. split; [exact Hrun|]. apply Hsame. reflexivity.
Defined.

(** ** Scanning twice *)

(** The text pieces and the fields of a wrapper give [acceptNode] nothing
    to accept. *)
Lemma accepted_pieces (ps : list piece) (i : nat) :
  Forall piece_ok ps →
  children_paths (accepted_paths (str "span")) i (node_of_piece <$> ps) = [].
Proof.
  intros Hok. apply children_paths_nil, Forall_fmap.
  eapply Forall_impl; [exact Hok|]. intros [s|run] Hp; simpl; [|done].
  destruct Hp as [_ Hno]. unfold accept_text. rewrite Hno.
  by rewrite andb_false_r.
Qed.

(** After a scan, a second walk finds no node to replace. *)
Lemma accepted_scan_tree (pt : jsstring) (n : node) :
  accepted_paths pt (scan_tree pt n) = [].
Proof.
  revert pt. induction n as [v|v|t a s ks IH] using node_tree_ind; intros pt.
  - cbn [scan_tree]. destruct (accept_text pt v) eqn:Hacc.
    + destruct (replace_value_cases v) as [[_ Hno]|(ps & -> & Hok & _)].
      * unfold accept_text in Hacc. rewrite Hno in Hacc.
        by rewrite andb_false_r in Hacc.
      * rewrite accepted_paths_Elem. by apply accepted_pieces.
    + simpl. by rewrite Hacc.
  - done.
  - cbn [scan_tree]. rewrite accepted_paths_Elem.
    apply children_paths_nil, Forall_fmap.
    eapply Forall_impl; [exact IH|]. intros k Hk. apply Hk.
Qed.

Lemma scan_tree_idemp (pt : jsstring) (n : node) :
  scan_tree pt (scan_tree pt n) = scan_tree pt n.
Proof. by rewrite <-(replace_accepted pt (scan_tree pt n)), accepted_scan_tree. Qed.

Lemma scan_root_idemp (n : node) : scan_root (scan_root n) = scan_root n.
Proof.
  destruct n as [v|v|t a s ks]; [done|done|].
  apply (scan_tree_idemp t (Elem t a s ks)).
Qed.

Lemma alter_at_alter_at (f g : node → node) (r : path) (d : node) :
  alter_at f r (alter_at g r d) = alter_at (f ∘ g) r d.
Proof.
  revert d. induction r as [|i r IH]; intros d; simpl; [done|].
  destruct d as [| |t a s ks]; try done. simpl. f_equal.
  rewrite list_alter_alter_eq. apply list_alter_ext; [|done].
  intros k _. apply IH.
Qed.

Lemma scan_twice (root : path) (d : node) :
  alter_at scan_root root (alter_at scan_root root d)
  = alter_at scan_root root d.
Proof.
  rewrite alter_at_alter_at. apply alter_at_ext. intros n _.
  apply scan_root_idemp.
Qed.

Lemma node_at_alter_at (f : node → node) (r : path) (d : node) :
  node_at r (alter_at f r d) = f <$> node_at r d.
Proof.
  rewrite <-(app_nil_r r) at 1. rewrite node_at_alter_at_app.
  by destruct (node_at r d).
Qed.

(** The walk of a second scan accepts no node. *)
Lemma walker_nodes_scanned (root : path) (d : node) (cursor : nat) console :
  ∃ cursor',
    walker_nodes root (mkWorld (alter_at scan_root root d) cursor console)
    = (mkWorld (alter_at scan_root root d) cursor' console, Ok []).
Proof.
  destruct (walker_nodes_run root
              (mkWorld (alter_at scan_root root d) cursor console))
    as (c & ->).
  exists c. do 2 f_equal. cbn [dom].
  pose proof (node_at_alter_at scan_root root d) as Hn.
  destruct (node_at root d) as [n0|] eqn:Hroot; simpl in Hn.
  2:{ unfold descendants_where. by rewrite Hn. }
  destruct n0 as [v|v|t a s ks]; simpl in Hn.
  1,2: unfold descendants_where; by rewrite Hn.
  rewrite (scan_paths _ _ _ _ _ _ Hn).
  change (Elem t a s (scan_tree t <$> ks)) with (scan_tree t (Elem t a s ks)).
  by rewrite accepted_scan_tree.
Qed.


(** ** Running [ensureStyle] and [beforePrint] *)

Lemma ensureStyle_run (w : world) :
  ensureStyle w =
  match head (paths_where (has_id STYLE_ID) (dom w)) with
  | Some _ => (w, Ok ())
  | None =>
      match head_of (dom w) with
      | Some h =>
          (set_dom (alter_at (appendChildren [style_element]) h (dom w)) w,
           Ok ())
      | None => (w, Throw TypeError)
      end
  end.
Proof.
  unfold ensureStyle, head_appendChild. js_unfold.
  by destruct (head (paths_where (has_id STYLE_ID) (dom w))).
Qed.

Lemma beforePrint_run (w : world) :
  beforePrint w =
  match ensureStyle w with
  | (w1, Ok _) => scan (body_of (dom w1)) w1
  | (w1, Throw e) => (w1, Throw e)
  end.
Proof.
  unfold beforePrint. unfold mbind, js_bind, gets.
  by destruct (ensureStyle w) as [w1 [[]|e]].
Qed.

(** ** The head and the body of a document *)

Lemma find_index_Some {A} (sel : A → bool) (j i : nat) (l : list A) :
  find_index sel j l = Some i →
  ∃ i' k, i = j + i' ∧ l !! i' = Some k ∧ sel k = true.
Proof.
  revert j. induction l as [|x l IH]; intros j; simpl; [done|].
  destruct (sel x) eqn:Hx.
  - intros [= <-]. exists 0, x. split_and!; [lia|done|done].
  - intros (i' & k & -> & Hk & Hs)%IH. exists (S i'), k.
    split_and!; [lia|done|done].
Qed.

Lemma find_index_alter {A} (sel : A → bool) (f : A → A) (i j : nat)
    (l : list A) :
  (∀ k, sel (f k) = sel k) →
  find_index sel j (alter f i l) = find_index sel j l.
Proof.
  intros Hf. revert i j. induction l as [|x l IH]; intros i j; [done|].
  destruct i as [|i]; simpl.
  - by rewrite Hf.
  - destruct (sel x); [done|]. apply IH.
Qed.

Lemma child_of_html_Some (sel : node → bool) (d : node) (p : path) :
  child_of_html sel d = Some p →
  ∃ i a s ks k,
    p = [i] ∧ d = Elem (str "html") a s ks ∧ ks !! i = Some k ∧ sel k = true.
Proof.
  unfold child_of_html. destruct d as [v|v|t a s ks]; try done. simpl.
  destruct (str_eqb t (str "html")) eqn:Ht; [|done].
  apply bool_decide_eq_true in Ht. subst t.
  destruct (find_index sel 0 ks) as [i|] eqn:Hi; [|done]. intros [= <-].
  apply find_index_Some in Hi as (i' & k & -> & Hk & Hs).
  by exists i', a, s, ks, k.
Qed.

Lemma child_of_html_alter (sel : node → bool) (f : node → node) (i : nat)
    (d : node) :
  (∀ k, sel (f k) = sel k) →
  child_of_html sel (alter_at f [i] d) = child_of_html sel d.
Proof.
  intros Hf. destruct d as [v|v|t a s ks]; try done.
  unfold child_of_html. simpl. destruct (str_eqb t (str "html")); [|done].
  by rewrite find_index_alter.
Qed.

Lemma has_tag_appendChildren (tag : jsstring) (l : list node) (n : node) :
  has_tag tag (appendChildren l n) = has_tag tag n.
Proof. by destruct n. Qed.

Lemma has_tag_scan_root (tag : jsstring) (n : node) :
  has_tag tag (scan_root n) = has_tag tag n.
Proof. by destruct n. Qed.

(** ** Elements with a given id *)

Lemma children_paths_app (G : node → list path) (j : nat) (l1 l2 : list node) :
  children_paths G j (l1 ++ l2)
  = children_paths G j l1 ++ children_paths G (j + length l1) l2.
Proof.
  revert j. induction l1 as [|k l1 IH]; intros j; simpl.
  - by rewrite Nat.add_0_r.
  - rewrite IH, <-app_assoc. do 3 f_equal. lia.
Qed.

Lemma children_paths_fmap_ext (G : node → list path) (g : node → node)
    (j : nat) (l : list node) :
  Forall (λ k, G (g k) = G k) l →
  children_paths G j (g <$> l) = children_paths G j l.
Proof.
  intros Hl. revert j. induction Hl as [|k l Hk _ IH]; intros j; simpl; [done|].
  by rewrite Hk, IH.
Qed.

Lemma children_paths_alter_ext (G : node → list path) (g : node → node)
    (i j : nat) (l : list node) :
  (∀ k, l !! i = Some k → G (g k) = G k) →
  children_paths G j (alter g i l) = children_paths G j l.
Proof.
  revert i j. induction l as [|x l IH]; intros i j Hg; [done|].
  destruct i as [|i]; simpl.
  - by rewrite (Hg x).
  - f_equal. apply IH. intros k Hk. by apply Hg.
Qed.

Lemma children_paths_alter_free (G : node → list path) (g : node → node)
    (i j : nat) (l : list node) (k : node) :
  Forall (λ k, G k = []) l →
  l !! i = Some k →
  children_paths G j (alter g i l) = ((j + i) ::.) <$> G (g k).
Proof.
  intros Hl. revert i j. induction Hl as [|x l Hx Hl IH]; intros i j; [done|].
  destruct i as [|i]; simpl.
  - intros [= ->]. rewrite (proj2 (children_paths_nil G (S j) l) Hl).
    by rewrite app_nil_r, Nat.add_0_r.
  - intros Hk. rewrite Hx. simpl.
    change (list_alter g i l) with (alter g i l).
    rewrite (IH _ _ Hk). do 2 f_equal. lia.
Qed.

Lemma has_id_Text (id v : jsstring) : paths_where (has_id id) (Text v) = [].
Proof. reflexivity. Qed.

Lemma has_id_field (id : jsstring) (run : nat) :
  paths_where (has_id id) (createInputFor run) = [].
Proof. reflexivity. Qed.

(** A scan makes no element with an id. *)
Lemma paths_where_id_scan_tree (id pt : jsstring) (n : node) :
  paths_where (has_id id) (scan_tree pt n) = paths_where (has_id id) n.
Proof.
  revert pt. induction n as [v|v|t a s ks IH] using node_tree_ind; intros pt.
  - cbn [scan_tree]. destruct (accept_text pt v); [|done].
    destruct (replace_value_cases v) as [[-> _]|(ps & -> & _)]; [done|].
    rewrite has_id_Text. apply paths_where_nil. split; [done|].
    apply Forall_fmap, Forall_true. by intros [s|run].
  - done.
  - cbn [scan_tree]. rewrite !paths_where_Elem.
    change (has_id id (Elem t a s (scan_tree t <$> ks)))
      with (has_id id (Elem t a s ks)). f_equal.
    apply children_paths_fmap_ext.
    eapply Forall_impl; [exact IH|]. intros k Hk. apply Hk.
Qed.

Lemma paths_where_id_alter_at (id : jsstring) (f : node → node) (r : path)
    (d : node) :
  (∀ n, paths_where (has_id id) (f n) = paths_where (has_id id) n) →
  paths_where (has_id id) (alter_at f r d) = paths_where (has_id id) d.
Proof.
  intros Hf. revert d. induction r as [|i r IH]; intros d; simpl; [done|].
  destruct d as [v|v|t a s ks]; [done|done|]. rewrite !paths_where_Elem.
  change (has_id id (Elem t a s (alter (alter_at f r) i ks)))
    with (has_id id (Elem t a s ks)). f_equal.
  apply children_paths_alter_ext. intros k _. apply IH.
Qed.

Lemma paths_where_id_scanned (id : jsstring) (root : path) (d : node) :
  paths_where (has_id id) (alter_at scan_root root d)
  = paths_where (has_id id) d.
Proof.
  apply paths_where_id_alter_at. intros [v|v|t a s ks]; [done|done|].
  apply (paths_where_id_scan_tree id t (Elem t a s ks)).
Qed.

(** In a document without an element of that id, the style element that
    [ensureStyle] appends to the head is the one element with the id. *)
Lemma paths_where_style_added (i : nat) t a s ks t' a' s' ks' :
  paths_where (has_id STYLE_ID) (Elem t a s ks) = [] →
  ks !! i = Some (Elem t' a' s' ks') →
  paths_where (has_id STYLE_ID)
    (alter_at (appendChildren [style_element]) [i] (Elem t a s ks))
  = [[i; length ks']].
Proof.
  intros [Hroot Hks]%paths_where_nil Hi. cbn [alter_at].
  rewrite paths_where_Elem.
  change (has_id STYLE_ID (Elem t a s (alter _ i ks)))
    with (has_id STYLE_ID (Elem t a s ks)). rewrite Hroot.
  rewrite (children_paths_alter_free _ _ _ _ _ _ Hks Hi).
  cbn [app appendChildren]. rewrite paths_where_Elem.
  pose proof (Forall_lookup_1 _ _ _ _ Hks Hi) as [Hhd Hks']%paths_where_nil.
  change (has_id STYLE_ID (Elem t' a' s' (ks' ++ [style_element])))
    with (has_id STYLE_ID (Elem t' a' s' ks')). rewrite Hhd.
  rewrite children_paths_app.
  rewrite (proj2 (children_paths_nil _ 0 ks') Hks'). reflexivity.
Qed.

Lemma head_is_not_body (n : node) :
  has_tag (str "head") n = true →
  has_tag (str "body") n || has_tag (str "frameset") n = false.
Proof.
  destruct n as [v|v|t a s ks]; try done. simpl.
  intros Ht. apply bool_decide_eq_true in Ht. by subst t.
Qed.

(** C5. On a document that has a [head] and no element with the id
    [print-fillers-style], two runs of [beforePrint] in a row both end
    normally; the second leaves the document exactly as the first left
    it, wrappers and fields included; after them one element bears the
    id, the [style] element that the first run appended to the head; and
    the walk of the second scan accepts no node. *)
Theorem beforePrint_twice (w : world) (h : path) :
  paths_where (has_id STYLE_ID) (dom w) = [] →
  head_of (dom w) = Some h →
  ∃ w1 w2,
    beforePrint w = (w1, Ok ()) ∧
    beforePrint w1 = (w2, Ok ()) ∧
    dom w2 = dom w1 ∧
    (∃ n, paths_where (has_id STYLE_ID) (dom w2) = [h ++ [n]] ∧
          node_at (h ++ [n]) (dom w2) = Some style_element) ∧
    (∀ b, body_of (dom w1) = Some b →
       ∃ cursor,
         walker_nodes b w1
         = (mkWorld (dom w1) cursor (console w1), Ok [])).
Proof.
  intros Hid Hhead.
  pose proof Hhead as (i & a & s & ks & hd & -> & Hd & Hi & Hhd)
    %child_of_html_Some.
  destruct hd as [v|v|t' a' s' ks']; [done|done|].
  set (d1 := alter_at (appendChildren [style_element]) [i] (dom w)).
  assert (Hids : paths_where (has_id STYLE_ID) d1 = [[i; length ks']]).
  { subst d1. rewrite Hd in Hid |- *.
    by apply (paths_where_style_added i _ _ _ _ t' a' s'). }
  assert (Hstyle : node_at [i; length ks'] d1 = Some style_element).
  { subst d1. rewrite Hd. cbn [alter_at node_at].
    rewrite list_lookup_alter_eq, Hi. simpl.
    by rewrite lookup_app_r, Nat.sub_diag by lia. }
  assert (Hbody : body_of d1 = body_of (dom w)).
  { apply child_of_html_alter. intros k.
    by rewrite !has_tag_appendChildren. }
  assert (Hfirst : ensureStyle w
                   = (mkWorld d1 (PATTERN_lastIndex w) (console w), Ok ())).
  { by rewrite ensureStyle_run, Hid, Hhead. }
  assert (Hensure : ∀ d c l,
            paths_where (has_id STYLE_ID) d = [[i; length ks']] →
            ensureStyle (mkWorld d c l) = (mkWorld d c l, Ok ())).
  { intros d c l Hp. by rewrite ensureStyle_run; cbn [dom]; rewrite Hp. }
  rewrite beforePrint_run, Hfirst. cbn [dom]. rewrite Hbody.
  destruct (body_of (dom w)) as [b|] eqn:Hb.
  - pose proof Hb as (j & a0 & s0 & ks0 & bd & -> & Hd0 & Hj & Hbd)
      %child_of_html_Some.
    assert (Hij : i ≠ j).
    { intros <-. rewrite Hd in Hd0. injection Hd0 as <- <- <-.
      rewrite Hi in Hj. injection Hj as <-.
      apply head_is_not_body in Hhd. congruence. }
    destruct (scan_run [j] (mkWorld d1 (PATTERN_lastIndex w) (console w)))
      as (c1 & Hscan1).
    cbn [dom console] in Hscan1. rewrite Hscan1.
    set (d2 := alter_at scan_root [j] d1).
    assert (Hbody2 : body_of d2 = Some [j]).
    { subst d2. unfold body_of. rewrite child_of_html_alter.
      - fold (body_of d1). by rewrite Hbody.
      - intros k. by rewrite !has_tag_scan_root. }
    assert (Hids2 : paths_where (has_id STYLE_ID) d2 = [[i; length ks']]).
    { subst d2. by rewrite paths_where_id_scanned. }
    destruct (scan_run [j] (mkWorld d2 c1 (console w))) as (c2 & Hscan2).
    cbn [dom console] in Hscan2.
    eexists _, _. split; [done|].
    rewrite beforePrint_run, (Hensure _ _ _ Hids2). cbn [dom].
    rewrite Hbody2, Hscan2. subst d2. rewrite scan_twice.
    split; [done|]. cbn [dom console]. split; [done|]. split.
    + exists (length ks'). split; [done|].
      rewrite node_at_alter_at_frame; [done| |].
      * intros [q Hq]. simpl in Hq. congruence.
      * intros [q Hq]. simpl in Hq. congruence.
    + intros b [= <-]. apply walker_nodes_scanned.
  - rewrite scan_run_None. eexists _, _. split; [done|].
    rewrite beforePrint_run. unfold log_warning. cbn [set_dom dom console].
    rewrite (Hensure _ _ _ Hids). cbn [dom]. rewrite Hbody, scan_run_None.
    split; [done|]. cbn [log_warning dom set_dom console].
    split; [done|]. split.
    + by exists (length ks').
    + by intros b Hb'.
Qed.

Lemma beforePrint_twice_witness :
  ∃ w1 w2,
    beforePrint sample_world = (w1, Ok ()) ∧
    beforePrint w1 = (w2, Ok ()) ∧
    dom w2 = dom w1 ∧
    ∃ n, paths_where (has_id STYLE_ID) (dom w2) = [[0] ++ [n]].
Proof.
  destruct (beforePrint_twice sample_world [0] eq_refl eq_refl)
    as (w1 & w2 & H1 & H2 & Hdom & (n & Hn & _) & _).
  exists w1, w2. split_and!; [exact H1|exact H2|exact Hdom|].
  exists n. exact Hn.
Defined.

(** The two runs on the sample document: the style element is appended to
    the head once, and the text node is replaced once. *)
Example beforePrint_twice_sample :
  dom (beforePrint (beforePrint sample_world).1).1
  = elem "html"
      [elem "head" [style_element];
       elem "body"
         [elem "p"
            [Elem (str "span") (wrapper_attrs sample_text) []
               [Text (str "Name"); Text (str ": "); createInputFor 5;
                Text (str " Date"); Text (str ": "); createInputFor 6]]]].
Proof. reflexivity. Qed.

(** * Further properties of the script *)

(** ** The pattern *)

(** [PATTERN.test(text)], with the cursor at the start, is true exactly
    when the text holds a colon, then white space if any, then five or
    more underscores. *)
Theorem test_iff_placeholder (text : jsstring) :
  (PATTERN_test text 0).1 = true ↔ contains_placeholder text.
Proof. apply has_match_contains. Qed.

(** A match of [PATTERN.exec] starts at the first position, at or after
    the cursor, where the pattern matches.  Its first group is all the
    white space after the colon, its second group the whole run of
    underscores (the text does not go on with an underscore), and the
    cursor is left just after the run, further than it was and inside the
    text. *)
Theorem exec_match_shape (text : jsstring) (cursor i : nat) (m : regex_match) :
  PATTERN_exec text cursor = (Some m, i) →
  (∃ rest, drop (m_index m) text = colon :: m_1 m ++ m_2 m ++ rest ∧
           ∀ c, head rest = Some c → is_underscore c = false) ∧
  Forall (λ c, is_space c = true) (m_1 m) ∧
  Forall (λ c, is_underscore c = true) (m_2 m) ∧
  5 ≤ length (m_2 m) ∧
  cursor ≤ m_index m ∧
  (∀ j, cursor ≤ j < m_index m → match_here (drop j text) = None) ∧
  i = m_index m + 1 + length (m_1 m) + length (m_2 m) ∧
  cursor < i ≤ length text.
Proof.
  intros (-> & Hc & Hlen & Hm & Hnone)%PATTERN_exec_Some.
  apply match_here_sound in Hm as (rest & Hd & Hsp & Hus & H5 & Hrest).
  unfold match_end in *. split_and!; try done; [by exists rest|lia].
Qed.

Lemma exec_match_shape_witness :
  5 ≤ length (m_2 (mkMatch 4 (str " ") (str "_____"))) ∧
  11 = 4 + 1 + 1 + 5.
Proof.
  destruct (exec_match_shape sample_text 0 11
              (mkMatch 4 (str " ") (str "_____")) eq_refl)
    as (_ & _ & _ & H5 & _ & _ & Hi & _).
  split; [exact H5|exact Hi].
Defined.

(** ** The shared cursor *)

Lemma while_exec_cursor (text : jsstring) (st : loop_state) :
  l_PATTERN_lastIndex (while_exec text st) = 0.
Proof.
  destruct (while_exec_rule text (λ _, True) (λ _ _ _ _ _, I) st I)
    as (st' & _ & _ & ->). done.
Qed.

Lemma while_exec_replaced (text : jsstring) :
  truthy text = true →
  l_replaced (while_exec text (mkLoop 0 0 [] false)) = has_match text.
Proof.
  intros Ht. pose proof (wrapper_for_spec text) as H.
  unfold wrapper_for in H. rewrite Ht in H.
  destruct (l_replaced _); [by destruct H as [-> _]|done].
Qed.

(** The result of [replaceInTextNode] on a node that has a parent. *)
Lemma replaceInTextNode_result (p : path) (w : world) :
  p ≠ [] →
  replaceInTextNode p w =
  match node_at p (dom w) ≫= nodeValue with
  | Some text =>
      if has_match text
      then (mkWorld (replace_at p (default (Text text) (wrapper_for text))
                       (dom w)) 0 (console w), Ok true)
      else (set_lastIndex (if truthy text then 0 else PATTERN_lastIndex w) w,
            Ok false)
  | None => (w, Ok false)
  end.
Proof.
  intros Hp. unfold replaceInTextNode. js_unfold. simpl.
  destruct (node_at p (dom w)) as [n|]; simpl; [|done].
  destruct (nodeValue n) as [text|]; simpl; [|done].
  destruct (truthy text) eqn:Ht; simpl.
  2:{ apply truthy_nil in Ht. subst text. unfold set_lastIndex.
      by rewrite world_eta. }
  unfold wrapper_for. rewrite Ht, while_exec_cursor.
  rewrite while_exec_replaced by done.
  destruct (has_match text); simpl; [|done]. by destruct p.
Qed.

Lemma accepts_inj (r r' : filter_result) : accepts r = accepts r' → r = r'.
Proof. by destruct r, r'. Qed.

Lemma replaceInTextNode_cursor (c : nat) (p : path) (w : world) :
  (replaceInTextNode p (set_lastIndex c w)).2 = (replaceInTextNode p w).2 ∧
  dom (replaceInTextNode p (set_lastIndex c w)).1
    = dom (replaceInTextNode p w).1 ∧
  console (replaceInTextNode p (set_lastIndex c w)).1
    = console (replaceInTextNode p w).1.
Proof.
  unfold replaceInTextNode. js_unfold. simpl.
  destruct (node_at p (dom w)) as [n|]; simpl; [|done].
  destruct (nodeValue n) as [text|]; simpl; [|done].
  destruct (truthy text); simpl; [|done].
  destruct (l_replaced _); simpl; [|done].
  destruct p as [|i q]; simpl; [|done].
  destruct (is_element (dom w)); simpl; done.
Qed.

(** The pattern object is shared by all calls and keeps its cursor between
    them, but every use sets the cursor first: whatever value [c] an earlier
    call left in it, [acceptNode], [replaceInTextNode] and [scan] decide,
    return and change the document alike. *)
Theorem shared_cursor_harmless (c : nat) (w : world) (p : path)
    (root : option path) :
  (acceptNode p (set_lastIndex c w)).2 = (acceptNode p w).2 ∧
  dom (acceptNode p (set_lastIndex c w)).1 = dom w ∧
  (replaceInTextNode p (set_lastIndex c w)).2 = (replaceInTextNode p w).2 ∧
  dom (replaceInTextNode p (set_lastIndex c w)).1
    = dom (replaceInTextNode p w).1 ∧
  (scan root (set_lastIndex c w)).2 = (scan root w).2 ∧
  dom (scan root (set_lastIndex c w)).1 = dom (scan root w).1.
Proof.
  split_and!.
  - destruct (acceptNode_run p (set_lastIndex c w)) as (c1 & r1 & -> & H1).
    destruct (acceptNode_run p w) as (c2 & r2 & -> & H2). simpl.
    f_equal. apply accepts_inj. by rewrite H1, H2.
  - by destruct (acceptNode_run p (set_lastIndex c w)) as (c1 & r1 & -> & _).
  - apply replaceInTextNode_cursor.
  - apply replaceInTextNode_cursor.
  - destruct root as [r|]; [|done].
    destruct (scan_run r (set_lastIndex c w)) as (c1 & ->).
    by destruct (scan_run r w) as (c2 & ->).
  - destruct root as [r|]; [|done].
    destruct (scan_run r (set_lastIndex c w)) as (c1 & ->).
    by destruct (scan_run r w) as (c2 & ->).
Qed.

(** ** [replaceInTextNode] *)

(** [replaceInTextNode] on a node that has a parent never throws and
    writes nothing to the console.  It returns [true] exactly when the
    value of the node holds a placeholder; the node is then replaced by a
    wrapper that stores the value, and the cursor of the pattern is back
    at zero.  When it returns [false] the document is as it was. *)
Theorem replaceInTextNode_outcome (p : path) (w : world) :
  p ≠ [] →
  ∃ w1 b,
    replaceInTextNode p w = (w1, Ok b) ∧
    console w1 = console w ∧
    (b = true ↔ ∃ text, node_at p (dom w) ≫= nodeValue = Some text ∧
                        contains_placeholder text) ∧
    (b = false → dom w1 = dom w) ∧
    (b = true →
     ∃ text kids,
       node_at p (dom w) ≫= nodeValue = Some text ∧
       node_at p (dom w1)
         = Some (Elem (str "span") (wrapper_attrs text) [] kids) ∧
       PATTERN_lastIndex w1 = 0).
Proof.
  intros Hp. rewrite replaceInTextNode_result by done.
  destruct (node_at p (dom w)) as [n|] eqn:Hn; simpl.
  2:{ eexists _, _. split_and!; try done. split; [done|by intros (? & ? & _)]. }
  destruct (nodeValue n) as [text|] eqn:Hv; simpl.
  2:{ eexists _, _. split_and!; try done. split; [done|by intros (? & ? & _)]. }
  destruct (has_match text) eqn:Hm.
  - eexists _, _. split_and!; try done.
    + split; [|done]. intros _. exists text. split; [done|].
      by apply has_match_contains.
    + intros _. pose proof (wrapper_for_spec text) as H.
      destruct (wrapper_for text) as [wr|]; [|congruence].
      destruct H as (_ & ps & -> & _). cbn [dom default].
      exists text, (node_of_piece <$> ps). split_and!; try done.
      unfold replace_at. by rewrite node_at_alter_at, Hn.
  - eexists _, _. split_and!; try done. split; [done|].
    intros (text' & [= <-] & Hph%has_match_contains). congruence.
Qed.

Lemma replaceInTextNode_outcome_witness :
  ∃ w1 b, replaceInTextNode [1; 0; 0] sample_world = (w1, Ok b) ∧
          console w1 = console sample_world.
Proof.
  destruct (replaceInTextNode_outcome [1; 0; 0] sample_world)
    as (w1 & b & Hrun & Hc & _); [discriminate|].
  exists w1, b. split; [exact Hrun|exact Hc].
Defined.

(** ** [acceptNode] *)

(** For a text node whose parent is an element, [acceptNode] accepts
    exactly when the name of the parent is not in the list and [test]
    finds a match: the tests on the empty and the trimmed value reject no
    text that has a match.  It leaves the document and the console as
    they are. *)
Theorem acceptNode_decision (p : path) (w : world) (v t : jsstring) a s ks :
  p ≠ [] →
  node_at p (dom w) = Some (Text v) →
  node_at (removelast p) (dom w) = Some (Elem t a s ks) →
  ∃ cursor,
    acceptNode p w
    = (mkWorld (dom w) cursor (console w),
       Ok (if negb (skipped t) && has_match v
           then FILTER_ACCEPT else FILTER_REJECT)).
Proof.
  intros Hp Hn Hpar. destruct (acceptNode_run p w) as (c & r & -> & Hr).
  exists c. do 2 f_equal. apply accepts_inj. rewrite Hr.
  unfold accept_at. rewrite Hn, Hpar. simpl. destruct p; [done|].
  destruct (has_match v) eqn:Hm.
  - rewrite accept_text_match by done. by destruct (skipped t).
  - unfold accept_text. rewrite Hm, andb_false_r. by destruct (skipped t).
Qed.

Lemma acceptNode_decision_witness :
  ∃ cursor,
    acceptNode [1; 0; 0] sample_world
    = (mkWorld (dom sample_world) cursor (console sample_world),
       Ok FILTER_ACCEPT).
Proof.
  exact (acceptNode_decision [1; 0; 0] sample_world sample_text (str "p")
           [] [] [Text sample_text] ltac:(discriminate) eq_refl eq_refl).
Defined.

(** ** What a scan leaves alone *)

Lemma same_shell_refl (n : node) : same_shell n n.
Proof. destruct n as [v|v|t a s ks]; simpl; eauto. Qed.

Lemma scan_tree_shell (q : path) (n m : node) (pt : jsstring) :
  node_at q n = Some m →
  ∃ m', node_at q (scan_tree pt n) = Some m' ∧ same_shell m m'.
Proof.
  revert n pt. induction q as [|i q IH]; intros n pt Hm.
  - injection Hm as <-. eexists. split; [done|].
    destruct n as [v|v|t a s ks]; cbn [scan_tree].
    + destruct (accept_text pt v); [|by left].
      destruct (replace_value_cases v) as [[-> _]|(ps & -> & _)];
        [by left|right; by eexists].
    + done.
    + eexists. split; [done|]. by rewrite length_fmap.
  - destruct n as [v|v|t a s ks]; try done. cbn [scan_tree node_at] in *.
    rewrite list_lookup_fmap. destruct (ks !! i) as [k|]; simpl in *; [|done].
    by apply IH.
Qed.

Lemma scan_root_shell (q : path) (n m : node) :
  node_at q n = Some m →
  ∃ m', node_at q (scan_root n) = Some m' ∧ same_shell m m'.
Proof.
  intros Hm. destruct n as [v|v|t a s ks].
  - exists m. split; [done|apply same_shell_refl].
  - exists m. split; [done|apply same_shell_refl].
  - by apply (scan_tree_shell q (Elem t a s ks) m t).
Qed.

Lemma alter_at_shell (r p : path) (d m : node) :
  node_at p d = Some m →
  ∃ m', node_at p (alter_at scan_root r d) = Some m' ∧ same_shell m m'.
Proof.
  revert p d. induction r as [|i r IH]; intros p d Hm.
  - by apply scan_root_shell.
  - destruct d as [v|v|t a s ks].
    + exists m. split; [done|apply same_shell_refl].
    + exists m. split; [done|apply same_shell_refl].
    + destruct p as [|j p].
      * injection Hm as <-. eexists. split; [done|]. simpl.
        eexists. split; [done|]. by rewrite length_alter.
      * cbn [alter_at node_at] in *.
        destruct (decide (i = j)) as [->|Hij].
        -- rewrite list_lookup_alter_eq.
           destruct (ks !! j) as [k|]; simpl in *; [|done]. by apply IH.
        -- rewrite list_lookup_alter_ne by done.
           exists m. split; [done|apply same_shell_refl].
Qed.

(** A scan invalidates no address and touches nothing but text nodes:
    where there was a node there still is one; an element keeps its name,
    attributes, inline style and number of children, a comment stays as it
    is, and a text node stays as it is or has become the wrapper that
    stores its value. *)
Theorem scan_keeps_shell (w : world) (root : option path) (p : path)
    (n : node) :
  node_at p (dom w) = Some n →
  ∃ w1 n',
    scan root w = (w1, Ok ()) ∧
    node_at p (dom w1) = Some n' ∧
    same_shell n n'.
Proof.
  intros Hn. destruct root as [r|].
  - destruct (scan_run r w) as (c & ->).
    destruct (alter_at_shell r p _ _ Hn) as (n' & Hn' & Hs).
    by eexists _, n'.
  - rewrite scan_run_None. eexists _, n. split_and!; [done|done|].
    apply same_shell_refl.
Qed.

Lemma scan_keeps_shell_witness :
  ∃ w1 n',
    scan (Some [1]) sample_world = (w1, Ok ()) ∧
    node_at [1; 0] (dom w1) = Some n' ∧
    same_shell (elem "p" [Text sample_text]) n'.
Proof.
  exact (scan_keeps_shell sample_world (Some [1]) [1; 0]
           (elem "p" [Text sample_text]) eq_refl).
Defined.

(** What a scan makes of a text node whose parent is an element: the
    wrapper of its value if the node is below the root of the scan, the
    name of its parent is not in the list and its value holds a
    placeholder, and the same text node in every other case. *)
Theorem scan_text_node_fate (w : world) (root p : path) (v t : jsstring)
    a s ks :
  p ≠ [] →
  node_at p (dom w) = Some (Text v) →
  node_at (removelast p) (dom w) = Some (Elem t a s ks) →
  ∃ w1,
    scan (Some root) w = (w1, Ok ()) ∧
    if is_below root p && negb (skipped t) && has_match v
    then ∃ kids, node_at p (dom w1)
                 = Some (Elem (str "span") (wrapper_attrs v) [] kids)
    else node_at p (dom w1) = Some (Text v).
Proof.
  intros Hp Hn Hpar. destruct (scan_run root w) as (c & ->).
  eexists. split; [done|]. cbn [dom].
  rewrite (node_at_scanned _ _ _ v t a s ks) by done.
  destruct (is_below root p); simpl; [|done].
  destruct (has_match v) eqn:Hm.
  - rewrite accept_text_match by done.
    destruct (skipped t); simpl; [done|].
    destruct (replace_value_cases v) as [[_ Hno]|(ps & -> & _)];
      [congruence|by eexists].
  - unfold accept_text. rewrite Hm, !andb_false_r. done.
Qed.

Lemma scan_text_node_fate_witness :
  ∃ w1,
    scan (Some [0]) sample_world = (w1, Ok ()) ∧
    node_at [1; 0; 0] (dom w1) = Some (Text sample_text).
Proof.
  exact (scan_text_node_fate sample_world [0] [1; 0; 0] sample_text (str "p")
           [] [] [Text sample_text] ltac:(discriminate) eq_refl eq_refl).
Defined.

(** A scan changes nothing outside the subtree of its root: a node that
    is neither below the root nor above it is the same afterwards.  So
    [scan(document.body)] leaves the head alone. *)
Theorem scan_outside_root (w : world) (root p : path) :
  ¬ root `prefix_of` p →
  ¬ p `prefix_of` root →
  ∃ w1, scan (Some root) w = (w1, Ok ()) ∧
        node_at p (dom w1) = node_at p (dom w).
Proof.
  intros Hrp Hpr. destruct (scan_run root w) as (c & ->).
  eexists. split; [done|]. by apply node_at_alter_at_frame.
Qed.

Lemma scan_outside_root_witness :
  ∃ w1, scan (Some [1]) sample_world = (w1, Ok ()) ∧
        node_at [0] (dom w1) = node_at [0] (dom sample_world).
Proof.
  apply scan_outside_root.
  - intros [q Hq]. discriminate Hq.
  - intros [q Hq]. discriminate Hq.
Defined.

(** ** [afterPrint] *)

(** [afterPrint] as a function of the document.  It puts the stored text
    in the place of every [span] of class [print-fillers-wrapper] that has
    a [data-original] attribute and is not inside another such [span]
    (those inside go with the outer one); all other nodes stay.  It throws
    only when the document element itself is such a [span], and then
    changes nothing. *)
Theorem afterPrint_effect (w : world) :
  afterPrint w =
  if revertible (dom w) then (w, Throw HierarchyRequestError)
  else (set_dom (revert_tree (dom w)) w, Ok ()).
Proof. apply afterPrint_run. Qed.

Lemma revert_tree_clean (n : node) :
  paths_where revertible (revert_tree n) = [].
Proof.
  induction n as [v|v|t a s ks IH] using node_tree_ind; [done|done|].
  cbn [revert_tree]. destruct (revertible (Elem t a s ks)) eqn:Hr.
  - unfold revertible in Hr.
    apply andb_true_iff in Hr as [_ [o Ho]%bool_decide_eq_true].
    unfold revert_node. by rewrite Ho.
  - apply paths_where_nil. split; [exact Hr|]. by apply Forall_fmap.
Qed.

Lemma set_dom_same (w : world) : set_dom (dom w) w = w.
Proof. by destruct w. Qed.

(** After [afterPrint] no wrapper that stores a text is left in the
    document, and a second [afterPrint] changes nothing. *)
Theorem afterPrint_twice (w : world) :
  revertible (dom w) = false →
  ∃ w1,
    afterPrint w = (w1, Ok ()) ∧
    paths_where revertible (dom w1) = [] ∧
    afterPrint w1 = (w1, Ok ()).
Proof.
  intros Hr. rewrite afterPrint_run, Hr. eexists. split; [done|].
  cbn [set_dom dom]. split; [apply revert_tree_clean|].
  rewrite afterPrint_run.
  change (dom (set_dom (revert_tree (dom w)) w)) with (revert_tree (dom w)).
  assert (revertible (revert_tree (dom w)) = false) as ->.
  { pose proof (revert_tree_clean (dom w)) as H.
    destruct (revert_tree (dom w)) as [v|v|t a s ks]; [done|done|].
    by apply paths_where_nil in H as [H _]. }
  rewrite (revert_tree_free (revert_tree (dom w)))
    by apply revert_tree_clean.
  unfold set_dom. done.
Qed.

Lemma afterPrint_twice_witness :
  ∃ w1,
    afterPrint (scan (Some [1]) sample_world).1 = (w1, Ok ()) ∧
    paths_where revertible (dom w1) = [] ∧
    afterPrint w1 = (w1, Ok ()).
Proof.
  exact (afterPrint_twice (scan (Some [1]) sample_world).1 eq_refl).
Defined.

(** ** [ensureStyle] and [beforePrint] *)

Lemma head_nil {A} (l : list A) : head l = None → l = [].
Proof. by destruct l. Qed.

Lemma ensureStyle_fresh (w : world) (h : path) :
  paths_where (has_id STYLE_ID) (dom w) = [] →
  head_of (dom w) = Some h →
  ∃ n,
    ensureStyle w
    = (set_dom (alter_at (appendChildren [style_element]) h (dom w)) w,
       Ok ()) ∧
    paths_where (has_id STYLE_ID)
      (alter_at (appendChildren [style_element]) h (dom w)) = [h ++ [n]].
Proof.
  intros Hid Hhead.
  pose proof Hhead as (i & a & s & ks & hd & -> & Hd & Hi & Hhd)
    %child_of_html_Some.
  destruct hd as [v|v|t' a' s' ks']; [done|done|].
  exists (length ks'). split.
  - by rewrite ensureStyle_run, Hid, Hhead.
  - rewrite Hd in Hid |- *.
    by apply (paths_where_style_added i _ _ _ _ t' a' s').
Qed.

(** Once [ensureStyle] has returned normally, some element bears the id
    [print-fillers-style], and every further call returns at once and
    leaves the world as it is: the style element is never added twice. *)
Theorem ensureStyle_idempotent (w w1 : world) :
  ensureStyle w = (w1, Ok ()) →
  paths_where (has_id STYLE_ID) (dom w1) ≠ [] ∧
  ensureStyle w1 = (w1, Ok ()).
Proof.
  intros Hrun.
  assert (Hids : paths_where (has_id STYLE_ID) (dom w1) ≠ []).
  { rewrite ensureStyle_run in Hrun.
    destruct (head (paths_where (has_id STYLE_ID) (dom w))) as [q|] eqn:Hq.
    - injection Hrun as <-. intros Hnil. by rewrite Hnil in Hq.
    - apply head_nil in Hq.
      destruct (head_of (dom w)) as [h|] eqn:Hh; [|done].
      destruct (ensureStyle_fresh w h Hq Hh) as (n & _ & Hp).
      injection Hrun as <-. cbn [set_dom dom]. by rewrite Hp. }
  split; [done|]. rewrite ensureStyle_run.
  by destruct (paths_where (has_id STYLE_ID) (dom w1)).
Qed.

Lemma ensureStyle_idempotent_witness :
  paths_where (has_id STYLE_ID) (dom (ensureStyle sample_world).1) ≠ [] ∧
  ensureStyle (ensureStyle sample_world).1
  = ((ensureStyle sample_world).1, Ok ()).
Proof.
  exact (ensureStyle_idempotent sample_world (ensureStyle sample_world).1
           eq_refl).
Defined.

Lemma scan_scanned (root : option path) (w : world) :
  ∃ w1, scan root w = (w1, Ok ()) ∧ dom w1 = scanned root (dom w).
Proof.
  destruct root as [r|].
  - destruct (scan_run r w) as (c & ->). by eexists.
  - rewrite scan_run_None. by eexists.
Qed.

(** [beforePrint] throws exactly when the document has neither an element
    with the id [print-fillers-style] nor a head to put the style element
    in.  It then throws a type error before the scan starts, so the
    document is left as it is, placeholders included. *)
Theorem beforePrint_throws_iff (w : world) :
  (beforePrint w = (w, Throw TypeError) ↔
   paths_where (has_id STYLE_ID) (dom w) = [] ∧ head_of (dom w) = None) ∧
  (∀ w1 e, beforePrint w = (w1, Throw e) → w1 = w ∧ e = TypeError).
Proof.
  rewrite beforePrint_run, ensureStyle_run.
  destruct (head (paths_where (has_id STYLE_ID) (dom w))) as [q|] eqn:Hq.
  - destruct (scan_scanned (body_of (dom w)) w) as (w1 & -> & _).
    split; [|done]. split; [done|]. intros [Hnil _]. by rewrite Hnil in Hq.
  - apply head_nil in Hq. destruct (head_of (dom w)) as [h|] eqn:Hh.
    + match goal with
      | |- context [scan ?r ?w'] =>
          destruct (scan_scanned r w') as (w1 & -> & _)
      end.
      split; [|done]. split; [done|]. by intros [_ ?].
    + split; [done|]. by intros w1 e [= <- <-].
Qed.

Lemma beforePrint_throws_iff_witness :
  beforePrint headless_world = (headless_world, Throw TypeError).
Proof.
  apply (proj1 (beforePrint_throws_iff headless_world)).
  split; reflexivity.
Defined.

(** ** A whole print cycle *)

Lemma marker_free_style_added (h : path) (d : node) :
  paths_where is_marker d = [] →
  head_of d = Some h →
  paths_where is_marker (alter_at (appendChildren [style_element]) h d) = [].
Proof.
  intros Hfree (i & a & s & ks & hd & -> & -> & Hi & Hhd)%child_of_html_Some.
  apply paths_where_nil in Hfree as [Hroot Hks]. cbn [alter_at].
  apply paths_where_nil. split; [exact Hroot|].
  apply Forall_alter; [done|]. intros k _ Hk.
  destruct k as [v|v|t' a' s' ks']; [done|done|].
  apply paths_where_nil in Hk as [Hk Hks']. cbn [appendChildren].
  apply paths_where_nil. split; [exact Hk|].
  apply Forall_app. split; [done|]. by repeat constructor.
Qed.

Lemma revert_scanned_any (root : option path) (d : node) :
  paths_where is_marker d = [] →
  revertible (scanned root d) = false ∧ revert_tree (scanned root d) = d.
Proof.
  intros Hfree.
  assert (Hmark : is_marker d = false).
  { destruct d as [| |t a s ks]; try done.
    by apply paths_where_nil in Hfree as [Hf _]. }
  destruct root as [r|]; simpl.
  - split; [|by apply revert_scanned].
    unfold revertible. by rewrite is_marker_scanned, Hmark.
  - split; [unfold revertible; by rewrite Hmark|].
    apply revert_tree_free.
    by apply (paths_where_mono _ _ _ revertible_is_marker).
Qed.

(** A print cycle on a document that has a head, no element with the id
    [print-fillers-style] and no wrapper: [beforePrint] and then
    [afterPrint] both end normally and leave the document as it was, but
    for the style element, which stays in the head as its last child;
    [afterPrint] never removes it.  A further [beforePrint] then gives the
    same document as the first, so the cycle can be repeated. *)
Theorem print_cycle (w : world) (h : path) :
  paths_where is_marker (dom w) = [] →
  paths_where (has_id STYLE_ID) (dom w) = [] →
  head_of (dom w) = Some h →
  ∃ w1 w2 w3,
    beforePrint w = (w1, Ok ()) ∧
    afterPrint w1 = (w2, Ok ()) ∧
    dom w2 = alter_at (appendChildren [style_element]) h (dom w) ∧
    beforePrint w2 = (w3, Ok ()) ∧
    dom w3 = dom w1.
Proof.
  intros Hfree Hid Hhead.
  destruct (ensureStyle_fresh w h Hid Hhead) as (n & Hstyle & Hids).
  set (d1 := alter_at (appendChildren [style_element]) h (dom w)) in *.
  assert (Hfree1 : paths_where is_marker d1 = [])
    by (by apply marker_free_style_added).
  rewrite beforePrint_run, Hstyle.
  destruct (scan_scanned (body_of (dom (set_dom d1 w))) (set_dom d1 w))
    as (w1 & Hscan & Hdom1).
  cbn [set_dom dom] in Hscan, Hdom1.
  exists w1, (set_dom d1 w1).
  destruct (revert_scanned_any (body_of d1) d1 Hfree1) as [Hrev Hrt].
  assert (Hafter : afterPrint w1 = (set_dom d1 w1, Ok ())).
  { by rewrite afterPrint_run, Hdom1, Hrev, Hrt. }
  destruct (scan_scanned (body_of d1) (set_dom d1 w1)) as (w3 & Hscan3 & Hdom3).
  exists w3. split_and!; [exact Hscan|exact Hafter|done| |].
  - rewrite beforePrint_run, ensureStyle_run. cbn [set_dom dom].
    rewrite Hids. simpl. exact Hscan3.
  - cbn [set_dom dom] in Hdom3. by rewrite Hdom3, Hdom1.
Qed.

Lemma print_cycle_witness :
  ∃ w1 w2 w3,
    beforePrint sample_world = (w1, Ok ()) ∧
    afterPrint w1 = (w2, Ok ()) ∧
    dom w2
    = elem "html"
        [elem "head" [style_element]; elem "body" [elem "p" [Text sample_text]]] ∧
    beforePrint w2 = (w3, Ok ()) ∧
    dom w3 = dom w1.
Proof.
  exact (print_cycle sample_world [0] eq_refl eq_refl eq_refl).
Defined.

(** ** Warnings *)

(** A scan writes to the console only when its root is [null]: then it
    logs one warning with the type error it caught.  With a root that is a
    node, nothing in the [try] block fails and the console stays as it
    is. *)
Theorem scan_warns_iff_null_root (root : option path) (w : world) :
  console (scan root w).1 =
  match root with
  | Some _ => console w
  | None => console w ++ [(scan_warning, TypeError)]
  end.
Proof.
  destruct root as [r|]; [|done]. by destruct (scan_run r w) as (c & ->).
Qed.
